(** * nla: storage-engine lifecycle and trie-indexed dictionary

    A shallow embedding of the two packages of github.com/miajio/nla that carry
    the design: [pkg/badger] (the engine wrapper with its GC ticker and its
    close handshake) and [pkg/participle] (the prefix tree kept in front of
    the key/value store, and learning of new words from text).

    Go strings are byte sequences: they are modelled by [string], whose
    characters are the bytes.  Go's [error] is [option error], [None] being
    [nil].  A Go [map[string]*TrieNode] is a [gmap string TrieNode]. *)

From Stdlib Require Import ZArith Ascii String List Bool Lia Floats.
From stdpp Require Import gmap strings list fin_maps sorting.

Set Warnings "-register-all".
Local Open Scope Z_scope.

(** ** Errors *)

Inductive error : Type :=
| ErrCloseTimeout                        (* errors.New("badger engine close timeout") *)
| ErrStorage (msg : string)              (* an error returned by the storage library *)
| ErrCodec (msg : string)                (* an error returned by encoding/json *)
| ErrWrap (prefix : string) (e : error). (* fmt.Errorf(prefix + ": %v", e) *)

(** ** Bytes and slices of a Go string *)

Definition byte_val (c : ascii) : Z := Z.of_N (N_of_ascii c).

(** [s[i]]; the callers below check the length first, as the Go code does. *)
Definition byte_at (i : nat) (s : string) : Z :=
  match String.get i s with
  | Some c => byte_val c
  | None => 0
  end.

(** [s[:n]] *)
Fixpoint string_take (n : nat) (s : string) : string :=
  match n, s with
  | S n', String c r => String c (string_take n' r)
  | _, _ => EmptyString
  end.

(** [s[n:]] *)
Fixpoint string_drop (n : nat) (s : string) : string :=
  match n, s with
  | S n', String _ r => string_drop n' r
  | _, _ => s
  end.

(** ** unicode/utf8: decoding of the first rune of a string

    Transcribed from the Go standard library ([utf8.DecodeRuneInString] with
    its tables [first] and [acceptRanges]); a rune is an [int32], held in
    [Z]. *)

Module utf8.

Definition RuneError : Z := 0xFFFD.

Definition maskx : Z := 0x3F.
Definition mask2 : Z := 0x1F.
Definition mask3 : Z := 0x0F.
Definition mask4 : Z := 0x07.

Definition locb : Z := 0x80.
Definition hicb : Z := 0xBF.

Definition xx : Z := 0xF1. (* invalid: size 1 *)
Definition as_ : Z := 0xF0. (* ASCII: size 1 *)
Definition s1 : Z := 0x02. (* accept 0, size 2 *)
Definition s2 : Z := 0x13. (* accept 1, size 3 *)
Definition s3 : Z := 0x03. (* accept 0, size 3 *)
Definition s4 : Z := 0x23. (* accept 2, size 3 *)
Definition s5 : Z := 0x34. (* accept 3, size 4 *)
Definition s6 : Z := 0x04. (* accept 0, size 4 *)
Definition s7 : Z := 0x44. (* accept 4, size 4 *)

(** The table [first[256]], by ranges of the first byte. *)
Definition first (b : Z) : Z :=
  if b <? 0x80 then as_
  else if b <? 0xC2 then xx
  else if b <? 0xE0 then s1
  else if b =? 0xE0 then s2
  else if b <? 0xED then s3
  else if b =? 0xED then s4
  else if b <? 0xF0 then s3
  else if b =? 0xF0 then s5
  else if b <? 0xF4 then s6
  else if b =? 0xF4 then s7
  else xx.

(** The table [acceptRanges[16]]: bounds of the second byte. *)
Definition acceptRanges (i : Z) : Z * Z :=
  match i with
  | 0 => (locb, hicb)
  | 1 => (0xA0, hicb)
  | 2 => (locb, 0x9F)
  | 3 => (0x90, hicb)
  | 4 => (locb, 0x8F)
  | _ => (0, 0)
  end.

(** Two's complement wrap-around of an [int32]. *)
Definition wrap32 (z : Z) : Z := (z + 2 ^ 31) mod 2 ^ 32 - 2 ^ 31.

Definition DecodeRuneInString (s : string) : Z * nat :=
  let n := String.length s in
  if (n <? 1)%nat then (RuneError, 0%nat)
  else
    let s0 := byte_at 0 s in
    let x := first s0 in
    if as_ <=? x then
      (* mask := rune(x) << 31 >> 31: all ones for xx, zero for as *)
      let mask := Z.shiftr (wrap32 (Z.shiftl x 31)) 31 in
      (Z.lor (Z.land s0 (Z.lnot mask)) (Z.land RuneError mask), 1%nat)
    else
      let sz := Z.to_nat (Z.land x 7) in
      let accept := acceptRanges (Z.shiftr x 4) in
      if (n <? sz)%nat then (RuneError, 1%nat)
      else
        let b1 := byte_at 1 s in
        if (b1 <? fst accept) || (snd accept <? b1) then (RuneError, 1%nat)
        else if (sz <=? 2)%nat then
          (Z.lor (Z.shiftl (Z.land s0 mask2) 6) (Z.land b1 maskx), 2%nat)
        else
          let b2 := byte_at 2 s in
          if (b2 <? locb) || (hicb <? b2) then (RuneError, 1%nat)
          else if (sz <=? 3)%nat then
            (Z.lor (Z.lor (Z.shiftl (Z.land s0 mask3) 12)
                          (Z.shiftl (Z.land b1 maskx) 6))
                   (Z.land b2 maskx), 3%nat)
          else
            let b3 := byte_at 3 s in
            if (b3 <? locb) || (hicb <? b3) then (RuneError, 1%nat)
            else
              (Z.lor (Z.lor (Z.lor (Z.shiftl (Z.land s0 mask4) 18)
                                   (Z.shiftl (Z.land b1 maskx) 12))
                            (Z.shiftl (Z.land b2 maskx) 6))
                     (Z.land b3 maskx), 4%nat).

End utf8.

(** ** Package badger: the engine, its GC ticker and its close handshake *)

Module badger.

(** *** The storage library, at its interface

    The database holds byte strings under byte-string keys.  Whether an
    update transaction commits is decided by the environment (disk, key
    and value limits): [update_results] scripts the outcome of the next
    update transactions ([None]: commit), and an exhausted script means
    commit.  [close_result] is what [db.Close()] will return. *)
Record DB : Type := mkDB {
  data : gmap string string;
  update_results : list (option error);
  close_result : option error }.

(** [db.Update(func(tx) { return tx.Set(key, value) })]: a failed
    transaction is discarded and leaves the data as it was. *)
Definition DB_Update_Set (key value : string) (d : DB) : DB * option error :=
  match update_results d with
  | Some e :: rest => (mkDB (data d) rest (close_result d), Some e)
  | None :: rest => (mkDB (<[key := value]> (data d)) rest (close_result d), None)
  | [] => (mkDB (<[key := value]> (data d)) [] (close_result d), None)
  end.

(** Keys are iterated in increasing byte order. *)
Definition key_le (a b : string * string) : Prop := String.leb (fst a) (fst b) = true.

#[global] Instance key_le_dec (a b : string * string) : Decision (key_le a b).
Proof. unfold key_le. apply _. Defined.

(** The items met by [for it.Rewind(); it.Valid(); it.Next()]. *)
Definition DB_items (d : DB) : list (string * string) :=
  merge_sort key_le (map_to_list (data d)).

(** *** time.Ticker

    Durations are nanoseconds.  [pending] is the tick waiting in the
    channel [C] (capacity one: a tick that finds it full is dropped);
    [elapsed] is the time since the ticker started or last fired. *)
Record Ticker : Type := mkTicker {
  period : Z;
  running : bool;
  elapsed : Z;
  pending : bool }.

Definition Minute : Z := 60000000000.
Definition Second : Z := 1000000000.

(** [time.NewTicker(d)]; it panics when [d <= 0] ([None]). *)
Definition NewTicker (d : Z) : option Ticker :=
  if d <=? 0 then None else Some (mkTicker d true 0 false).

(** [t.Stop()]: no more ticks are sent; the channel is not drained. *)
Definition Ticker_Stop (t : Ticker) : Ticker :=
  mkTicker (period t) false (elapsed t) (pending t).

(** [dt] nanoseconds pass. *)
Definition Ticker_advance (dt : Z) (t : Ticker) : Ticker :=
  if running t then
    let total := elapsed t + dt in
    mkTicker (period t) true (total mod period t) (pending t || (period t <=? total))
  else t.

(** *** Engine *)

(** [gcTicker] is a pointer: the address of a ticker in the heap of
    timers, [None] for nil.  The three channels are unbuffered and hold
    no state; their rendezvous are the joint steps below. *)
Record Engine : Type := mkEngine {
  db : option DB;
  gcTicker : option nat;
  gcInterval : Z;
  err : option error }.

(** [e.Set(key, value)], through [TxSet] and [db.Update].  [None] is the
    panic of a nil [e.db]. *)
Definition Set_ (key value : string) (e : Engine) : option (Engine * option error) :=
  match db e with
  | None => None
  | Some d =>
      let '(d', r) := DB_Update_Set key value d in
      Some (mkEngine (Some d') (gcTicker e) (gcInterval e) (err e), r)
  end.

(** *** The goroutines

    [listenerGC], [listenerClose] and the caller of [Close] run
    concurrently.  Each goroutine is followed from one blocking
    operation to the next; the timeout branch of [Close], which assigns
    [e.err] and then reads it back while [listenerClose] may assign it
    too, is followed statement by statement. *)

Inductive GCState : Type :=
| GCInit      (* spawned, ticker not created yet *)
| GCSelect.   (* blocked in the select of the for loop *)

Inductive ListenerState : Type :=
| LWait       (* blocked on <-e.done *)
| LClosing    (* received the request, about to close the database *)
| LAcking     (* blocked on e.doneSuccessChain <- struct{}{} *)
| LDone.      (* acknowledgement delivered, goroutine finished *)

Inductive ReturnPath : Type :=
| ByAck
| ByTimeout.

Inductive CloseState : Type :=
| CIdle                                        (* Close not called yet *)
| CWaiting (waited : Z)                        (* in the select, for [waited] ns *)
| CTimedOut                                    (* timeout branch: e.err assigned, return e.err next *)
| CReturned (p : ReturnPath) (v : option error).

Record World : Type := mkWorld {
  eng : Engine;
  timers : list Ticker;
  gcState : GCState;
  listenerState : ListenerState;
  closeState : CloseState;
  requests : nat;   (* sends on e.done *)
  gcRuns : nat;     (* calls of e.db.RunValueLogGC(0.5) *)
  crashed : bool }. (* a nil dereference or a panic stopped the process *)

Definition set_eng (e : Engine) (w : World) : World :=
  mkWorld e (timers w) (gcState w) (listenerState w) (closeState w)
          (requests w) (gcRuns w) (crashed w).

Definition set_timers (ts : list Ticker) (w : World) : World :=
  mkWorld (eng w) ts (gcState w) (listenerState w) (closeState w)
          (requests w) (gcRuns w) (crashed w).

Definition crash (w : World) : World :=
  mkWorld (eng w) (timers w) (gcState w) (listenerState w) (closeState w)
          (requests w) (gcRuns w) true.

(** [new(opt)] after [badger.Open] succeeded with [d]; [be.listener()]
    has spawned the two goroutines. *)
Definition new (d : DB) : World :=
  mkWorld (mkEngine (Some d) None (Minute * 5) None) []
          GCInit LWait CIdle 0 0 false.

(** [e.gcTicker.Stop()] *)
Definition stopGcTicker (w : World) : World :=
  match gcTicker (eng w) with
  | None => crash w
  | Some i => set_timers (alter Ticker_Stop i (timers w)) w
  end.

(** [e.gcTicker = time.NewTicker(e.gcInterval)] *)
Definition startGcTicker (w : World) : World :=
  match NewTicker (gcInterval (eng w)) with
  | None => crash w
  | Some t =>
      let e := eng w in
      set_eng (mkEngine (db e) (Some (length (timers w))) (gcInterval e) (err e))
              (set_timers (timers w ++ [t]) w)
  end.

(** [updateGcInterval] *)
Definition updateGcInterval (newGcInterval : Z) (w : World) : World :=
  let e := eng w in
  let w1 := set_eng (mkEngine (db e) (gcTicker e) newGcInterval (err e)) w in
  let w2 := stopGcTicker w1 in
  if crashed w2 then w2 else startGcTicker w2.

(** [SetGCInterval]: the value sent on [gcUpdateChan], if any. *)
Definition SetGCInterval (interval : Z) : option Z :=
  if 0 >=? interval then None else Some interval.

(** [e.db.RunValueLogGC(0.5)]; the call on a nil [e.db] dereferences it. *)
Definition RunValueLogGC (w : World) : World :=
  let w' := mkWorld (eng w) (timers w) (gcState w) (listenerState w) (closeState w)
                    (requests w) (S (gcRuns w)) (crashed w) in
  match db (eng w) with
  | None => crash w'
  | Some _ => w'
  end.

(** The body of [listenerClose] between its two channel operations. *)
Definition listenerCloseBody (w : World) : World :=
  let e := eng w in
  match db e with
  | None => crash w
  | Some d =>
      let err' := match close_result d with Some ce => Some ce | None => err e end in
      let w1 := set_eng (mkEngine None (gcTicker e) (gcInterval e) err') w in
      stopGcTicker w1
  end.

Inductive Event : Type :=
| GoListenerGC                 (* listenerGC creates its ticker and enters the loop *)
| Advance (dt : Z)             (* dt nanoseconds pass *)
| GCTick                       (* case <-e.gcTicker.C *)
| CallSetGCInterval (d : Z)    (* a goroutine runs SetGCInterval(d) *)
| CloseSend                    (* Close: e.done <- struct{}{}, met by listenerClose *)
| ListenerClose                (* listenerClose closes the database, stops the ticker *)
| CloseAck                     (* case <-e.doneSuccessChain in Close *)
| CloseTimeout                 (* case <-time.After(time.Second * 5) in Close; e.err = errors.New(...) *)
| CloseTimeoutReturn.          (* return e.err, in the timeout branch *)

Definition set_closeState (c : CloseState) (w : World) : World :=
  mkWorld (eng w) (timers w) (gcState w) (listenerState w) c
          (requests w) (gcRuns w) (crashed w).

Definition set_listenerState (l : ListenerState) (w : World) : World :=
  mkWorld (eng w) (timers w) (gcState w) l (closeState w)
          (requests w) (gcRuns w) (crashed w).

Definition set_gcState (g : GCState) (w : World) : World :=
  mkWorld (eng w) (timers w) g (listenerState w) (closeState w)
          (requests w) (gcRuns w) (crashed w).

Definition advance (dt : Z) (w : World) : World :=
  let c := match closeState w with
           | CWaiting t => CWaiting (t + dt)
           | c => c
           end in
  set_closeState c (set_timers (Ticker_advance dt <$> timers w) w).

(** The tick, if any, waiting in [e.gcTicker.C]. *)
Definition gcTickReady (w : World) : bool :=
  match gcTicker (eng w) with
  | None => false
  | Some i => match timers w !! i with
              | Some t => pending t
              | None => false
              end
  end.

Definition takeGcTick (w : World) : World :=
  match gcTicker (eng w) with
  | None => w
  | Some i =>
      set_timers (alter (fun t => mkTicker (period t) (running t) (elapsed t) false)
                        i (timers w)) w
  end.

(** One step of the system; [None] when the event cannot happen in [w]
    (the goroutine concerned is blocked or elsewhere). *)
Definition step (ev : Event) (w : World) : option World :=
  if crashed w then None else
  match ev with
  | GoListenerGC =>
      match gcState w with
      | GCInit => Some (set_gcState GCSelect (startGcTicker w))
      | GCSelect => None
      end
  | Advance dt =>
      if 0 <=? dt then Some (advance dt w) else None
  | GCTick =>
      match gcState w with
      | GCSelect => if gcTickReady w then Some (RunValueLogGC (takeGcTick w)) else None
      | GCInit => None
      end
  | CallSetGCInterval d =>
      match SetGCInterval d with
      | None => Some w
      | Some newGcInterval =>
          match gcState w with
          | GCSelect => Some (updateGcInterval newGcInterval w)
          | GCInit => None
          end
      end
  | CloseSend =>
      match closeState w, listenerState w with
      | CIdle, LWait =>
          let w1 := set_listenerState LClosing (set_closeState (CWaiting 0) w) in
          Some (mkWorld (eng w1) (timers w1) (gcState w1) (listenerState w1)
                        (closeState w1) (S (requests w1)) (gcRuns w1) (crashed w1))
      | _, _ => None
      end
  | ListenerClose =>
      match listenerState w with
      | LClosing => Some (set_listenerState LAcking (listenerCloseBody w))
      | _ => None
      end
  | CloseAck =>
      match closeState w, listenerState w with
      | CWaiting _, LAcking =>
          Some (set_listenerState LDone
                  (set_closeState (CReturned ByAck (err (eng w))) w))
      | _, _ => None
      end
  | CloseTimeout =>
      match closeState w with
      | CWaiting t =>
          if Second * 5 <=? t then
            let e := eng w in
            let e' := mkEngine (db e) (gcTicker e) (gcInterval e) (Some ErrCloseTimeout) in
            Some (set_closeState CTimedOut (set_eng e' w))
          else None
      | _ => None
      end
  | CloseTimeoutReturn =>
      match closeState w with
      | CTimedOut => Some (set_closeState (CReturned ByTimeout (err (eng w))) w)
      | _ => None
      end
  end.

Fixpoint run (evs : list Event) (w : World) : option World :=
  match evs with
  | [] => Some w
  | ev :: rest =>
      match step ev w with
      | Some w' => run rest w'
      | None => None
      end
  end.

(** What the handshake has established, by the states of [Close] and of
    [listenerClose], for an engine opened on [d0]. *)
Definition handshake_inv (d0 : DB) (w : World) : Prop :=
  match closeState w, listenerState w with
  | CIdle, LWait =>
      requests w = 0%nat ∧ db (eng w) = Some d0 ∧ err (eng w) = None
  | CWaiting _, LClosing =>
      requests w = 1%nat ∧ db (eng w) = Some d0 ∧ err (eng w) = None
  | CWaiting _, LAcking =>
      requests w = 1%nat ∧ err (eng w) = close_result d0
  | CReturned ByAck v, LDone =>
      requests w = 1%nat ∧ v = close_result d0
  | CTimedOut, LClosing =>
      requests w = 1%nat ∧ err (eng w) = Some ErrCloseTimeout ∧ db (eng w) = Some d0
  | CTimedOut, LAcking =>
      requests w = 1%nat
      ∧ (err (eng w) = Some ErrCloseTimeout
         ∨ (err (eng w) = close_result d0 ∧ close_result d0 ≠ None))
  | CReturned ByTimeout v, LClosing =>
      requests w = 1%nat ∧ v = Some ErrCloseTimeout ∧ db (eng w) = Some d0
  | CReturned ByTimeout v, LAcking =>
      requests w = 1%nat
      ∧ (v = Some ErrCloseTimeout ∨ (v = close_result d0 ∧ close_result d0 ≠ None))
  | _, _ => False
  end.

(** The GC loop, once in its select, listens to a ticker of the heap. *)
Definition ticker_inv (w : World) : Prop :=
  crashed w = false → gcState w = GCSelect →
  ∃ i, gcTicker (eng w) = Some i ∧ (i < length (timers w))%nat.

(** Some maintenance pass runs after the acknowledgement was delivered. *)
Definition tick_after_ack (evs : list Event) : Prop :=
  ∃ pre post, evs = pre ++ CloseAck :: post ∧ GCTick ∈ post.

End badger.

(** ** Package participle: the trie and the dictionary engine *)

Module participle.

(** [DictEntry]; [Frequency] is a [float64]. *)
Record DictEntry : Type := mkDictEntry {
  Content : string;
  Frequency : float;
  Pos : string }.

(** [TrieNode]; [Entry] is a pointer, [None] for nil.  Every node is
    owned by its parent's map alone, so the tree is a value. *)
Inductive TrieNode : Type := mkTrieNode {
  Children : gmap string TrieNode;
  IsEnd : bool;
  Entry : option DictEntry }.

Definition NewTrieNode : TrieNode := mkTrieNode ∅ false None.

(** *** common.go *)

(** The loop of [SplitString].  Every round removes at least one byte,
    so [length s] rounds are enough ([SplitString_loop_fuel] below). *)
Fixpoint SplitString_loop (fuel : nat) (s : string) (result : list string)
  : list string :=
  match fuel with
  | O => result
  | S fuel' =>
      if (0 <? String.length s)%nat then
        let '(_, size) := utf8.DecodeRuneInString s in
        SplitString_loop fuel' (string_drop size s) (result ++ [string_take size s])
      else result
  end.

Definition SplitString (s : string) : list string :=
  SplitString_loop (String.length s) s [].

(** The runes a regexp sees in [s]: the input is decoded rune by rune
    with [utf8.DecodeRuneInString], an invalid byte giving [RuneError]. *)
Fixpoint runes_loop (fuel : nat) (s : string) : list Z :=
  match fuel with
  | O => []
  | S fuel' =>
      if (0 <? String.length s)%nat then
        let '(r, size) := utf8.DecodeRuneInString s in
        r :: runes_loop fuel' (string_drop size s)
      else []
  end.

Definition runes (s : string) : list Z := runes_loop (String.length s) s.

(** The Unicode tables are not part of the repository: the character
    class [[\p{P}\p{S}\p{Z}]] is a parameter, a predicate on runes. *)
Class CharClass : Type := { inPSZ : Z → bool }.

Section Regexp.
Context `{CharClass}.

(** Length of the longest match of [[\p{P}\p{S}\p{Z}]+] at the head
    of the input; zero when there is none. *)
Fixpoint class_run (rs : list Z) : nat :=
  match rs with
  | r :: rest => if inPSZ r then S (class_run rest) else O
  | [] => O
  end.

(** [regexp.MatchString]: the pattern is not anchored, a match may
    start at any offset. *)
Fixpoint MatchString (rs : list Z) : bool :=
  match rs with
  | [] => false
  | _ :: rest => (0 <? class_run rs)%nat || MatchString rest
  end.

Definition IsSpecialChar (s : string) : bool :=
  if String.eqb s EmptyString then false
  else MatchString (runes s).
End Regexp.

(** *** The trie *)

(** The insertion written out twice in the source, in
    [insertIntoTrieAndDB] and in [loadDictionaryFromDB]: walk [chars],
    creating the missing children, then mark the last node. *)
Fixpoint trieInsert (chars : list string) (entry : DictEntry) (node : TrieNode)
  : TrieNode :=
  match chars with
  | [] => mkTrieNode (Children node) true (Some entry)
  | char :: rest =>
      let child := match Children node !! char with
                   | Some c => c
                   | None => NewTrieNode
                   end in
      mkTrieNode (<[char := trieInsert rest entry child]> (Children node))
                 (IsEnd node) (Entry node)
  end.

(** The loop of [containsWord]. *)
Fixpoint containsWord_loop (chars : list string) (node : TrieNode) : bool :=
  match chars with
  | [] => IsEnd node
  | char :: rest =>
      match Children node !! char with
      | None => false
      | Some c => containsWord_loop rest c
      end
  end.

(** The node at the end of a path of map keys, if the path exists. *)
Fixpoint walk (path : list string) (node : TrieNode) : option TrieNode :=
  match path with
  | [] => Some node
  | char :: rest =>
      match Children node !! char with
      | None => None
      | Some c => walk rest c
      end
  end.

(** The invariant of the data model on every node of a tree; the nodes
    are what the walks from the root end on. *)
Definition node_inv (t : TrieNode) : Prop :=
  ∀ path n, walk path t = Some n → (IsEnd n = true ↔ Entry n ≠ None).


(** *** The collaborators: encoding/json and the gse segmenter *)

Class Codec : Type := {
  Marshal : DictEntry → string + error;
  Unmarshal : string → DictEntry + error }.

Class Tokenizer : Type := {
  Segmenter : Type;
  Cut : Segmenter → string → bool → list string;
  AddToken : Segmenter → string → float → string → Segmenter }.

Section Engine.
Context `{CharClass} `{Codec} `{Tokenizer}.

Record Engine : Type := mkEngine {
  dbEngine : badger.Engine;
  segmenter : Segmenter;
  root : TrieNode }.

(** The body of the iteration in [loadDictionaryFromDB], on the items
    in the order the iterator yields them.  The first value that does
    not decode ends the scan with its error; the nodes made for the
    earlier items stay. *)
Fixpoint loadItems (items : list (string * string)) (root : TrieNode)
  : TrieNode * option error :=
  match items with
  | [] => (root, None)
  | (key, val) :: rest =>
      match Unmarshal val with
      | inr e => (root, Some e)
      | inl entry => loadItems rest (trieInsert (SplitString key) entry root)
      end
  end.

Definition loadDictionaryFromDB (d : badger.DB) (root : TrieNode)
  : TrieNode * option error :=
  loadItems (badger.DB_items d) root.

(** [None] is a panic (nil database handle). *)
Definition insertIntoTrieAndDB (content : string) (entry : DictEntry) (d : Engine)
  : option (Engine * option error) :=
  let root' := trieInsert (SplitString content) entry (root d) in
  match Marshal entry with
  | inr e => Some (mkEngine (dbEngine d) (segmenter d) root', Some e)
  | inl data =>
      match badger.Set_ content data (dbEngine d) with
      | None => None
      | Some (be, r) => Some (mkEngine be (segmenter d) root', r)
      end
  end.

Definition AddWord (content : string) (frequency : float) (pos : string) (d : Engine)
  : option (Engine * option error) :=
  let entry := mkDictEntry content frequency pos in
  match insertIntoTrieAndDB content entry d with
  | None => None
  | Some (d1, Some e) => Some (d1, Some (ErrWrap "save content to db fail" e))
  | Some (d1, None) =>
      Some (mkEngine (dbEngine d1) (AddToken (segmenter d1) content frequency pos)
                     (root d1), None)
  end.

Definition containsWord (content : string) (d : Engine) : bool :=
  containsWord_loop (SplitString content) (root d).

(** The loop of [LearnFromText] over the tokens ([len] counts bytes).
    The line printed for each learned word is left out. *)
Fixpoint LearnFromText_loop (contents : list string) (d : Engine)
  : option (Engine * option error) :=
  match contents with
  | [] => Some (d, None)
  | content :: rest =>
      if (String.length content <=? 1)%nat || IsSpecialChar content then
        LearnFromText_loop rest d
      else if negb (containsWord content d) then
        match AddWord content 1000%float "nz" d with
        | None => None
        | Some (d1, Some e) => Some (d1, Some (ErrWrap "添加新词失败" e))
        | Some (d1, None) => LearnFromText_loop rest d1
        end
      else LearnFromText_loop rest d
  end.

Definition LearnFromText (text : string) (d : Engine)
  : option (Engine * option error) :=
  LearnFromText_loop (Cut (segmenter d) text true) d.

(** A fresh bootstrap over the database of [d], as [New] does before
    it loads the segmenter: the rebuilt root, and the error if any. *)
Definition Bootstrap (d : badger.DB) : TrieNode * option error :=
  loadDictionaryFromDB d NewTrieNode.

(** The trie obtained from [t] by the insertions [ops], in order. *)
Definition insertAll (ops : list (string * DictEntry)) (t : TrieNode) : TrieNode :=
  fold_left (fun t op => trieInsert (SplitString (fst op)) (snd op) t) ops t.

(** The items of a scan that were inserted: those before the first
    value that does not decode. *)
Fixpoint decodedItems (items : list (string * string)) : list (string * DictEntry) :=
  match items with
  | [] => []
  | (key, val) :: rest =>
      match Unmarshal val with
      | inr _ => []
      | inl entry => (key, entry) :: decodedItems rest
      end
  end.

(** [built cs t]: [t] comes from a fresh root by insertions and scans
    of a store, and [cs] lists the contents inserted, latest first. *)
Inductive built : list string → TrieNode → Prop :=
| built_new : built [] NewTrieNode
| built_insert cs t content entry :
    built cs t →
    built (content :: cs) (trieInsert (SplitString content) entry t)
| built_load cs t items :
    built cs t →
    built (rev (map fst (decodedItems items)) ++ cs) (fst (loadItems items t)).

(** The store holds the record that [insertIntoTrieAndDB] writes for [entry]. *)
Definition storeHolds (entry : DictEntry) (be : badger.Engine) : Prop :=
  ∃ s data, badger.db be = Some s
            ∧ Marshal entry = inl data
            ∧ badger.data s !! Content entry = Some data.
End Engine.

End participle.

(** ** Stand-ins for the collaborators, for the examples

    Small instances of the three interfaces, to run the definitions on
    concrete inputs. *)

Module standin.
Import participle.

(** The ASCII part of the Unicode categories P, S and Z: the space and
    the printable characters that are neither digits nor letters. *)
Definition asciiPSZ (r : Z) : bool :=
  (r =? 0x20) || ((0x21 <=? r) && (r <=? 0x2F)) || ((0x3A <=? r) && (r <=? 0x40))
  || ((0x5B <=? r) && (r <=? 0x60)) || ((0x7B <=? r) && (r <=? 0x7E)).

Definition asciiClass : CharClass := {| inPSZ := asciiPSZ |}.

(** A codec for the entries of learned words: the content is the
    encoding, the frequency and the tag are the defaults. *)
Definition learnedCodec : Codec := {|
  Marshal := fun e => inl (Content e);
  Unmarshal := fun v =>
    if String.eqb v EmptyString then inr (ErrCodec "unexpected end of JSON input")
    else inl (mkDictEntry v 1000%float "nz") |}.

(** The loop of a tokenizer that cuts at spaces. *)
Fixpoint fields_loop (s cur : string) : list string :=
  match s with
  | EmptyString => if String.eqb cur EmptyString then [] else [cur]
  | String c r =>
      if Ascii.eqb c " " then
        (if String.eqb cur EmptyString then fields_loop r EmptyString
         else cur :: fields_loop r EmptyString)
      else fields_loop r (cur ++ String c EmptyString)%string
  end.

(** Its segmenter remembers the tokens it was given. *)
Definition spaceTokenizer : Tokenizer := {|
  Segmenter := list string;
  Cut := fun _ text _ => fields_loop text EmptyString;
  AddToken := fun seg word _ _ => word :: seg |}.

(** The bytes E6 88 91: the single character U+6211. *)
Definition wo : string :=
  String (ascii_of_nat 230) (String (ascii_of_nat 136) (String (ascii_of_nat 145) EmptyString)).

Definition openDB (script : list (option error)) : badger.DB :=
  badger.mkDB ∅ script None.

(** An engine over an open and empty database. *)
Definition emptyEngine (script : list (option error)) : @Engine spaceTokenizer :=
  @mkEngine spaceTokenizer
            (badger.mkEngine (Some (openDB script)) None (badger.Minute * 5) None)
            [] NewTrieNode.

(** The engine after [AddWord "ab" 1000.0 "nz"], the writes following [script]. *)
Definition abEngine (script : list (option error)) : @Engine spaceTokenizer :=
  match @AddWord learnedCodec spaceTokenizer "ab" 1000%float "nz" (emptyEngine script) with
  | Some (d, _) => d
  | None => emptyEngine script
  end.

(** Its store, and the root a restart rebuilds from it. *)
Definition abStore : badger.DB :=
  match badger.db (dbEngine (abEngine [])) with
  | Some s => s
  | None => openDB []
  end.

Definition abRoot : TrieNode := fst (@Bootstrap learnedCodec abStore).

(** The handshake of [Close], acknowledged. *)
Definition closeAcked : list badger.Event :=
  [badger.GoListenerGC; badger.CloseSend; badger.ListenerClose; badger.CloseAck].

Definition diskFull : error := ErrStorage "no space left on device".

(** [Close] is called before [listenerGC] has created its ticker. *)
Definition closeBeforeTicker : list badger.Event :=
  [badger.CloseSend; badger.ListenerClose].

(** The timeout of [Close] fires while the database is still closing;
    [listenerClose] records the error of the close between the two
    statements of the timeout branch. *)
Definition timeoutRace : list badger.Event :=
  [badger.GoListenerGC; badger.CloseSend; badger.Advance (badger.Second * 5);
   badger.CloseTimeout; badger.ListenerClose; badger.CloseTimeoutReturn].

(** Close acknowledged, then an interval update, then the new ticker fires. *)
Definition tickAfterClose : list badger.Event :=
  [badger.GoListenerGC; badger.CloseSend; badger.ListenerClose; badger.CloseAck;
   badger.CallSetGCInterval 1; badger.Advance 1; badger.GCTick].
End standin.

(** ** Package badger, store_func.go: the key/value helpers *)

Module store_func.
Import badger.

(** Errors are compared as [err == badger.ErrKeyNotFound] compares them. *)
#[global] Instance error_eq_dec : EqDecision error.
Proof. solve_decision. Defined.

(** [badger.ErrKeyNotFound] *)
Definition ErrKeyNotFound : error := ErrStorage "Key not found".

(** [badger.ErrEmptyKey]: what a transaction answers to the empty key. *)
Definition ErrEmptyKey : error := ErrStorage "Key cannot be empty".

(** [tx.Get(key)] followed by the copy of the value, in a read
    transaction: the value, [ErrEmptyKey] for the empty key, or
    [ErrKeyNotFound]. *)
Definition tx_Get (key : string) (d : DB) : string + error :=
  if String.eqb key EmptyString then inr ErrEmptyKey
  else match data d !! key with
       | Some v => inl v
       | None => inr ErrKeyNotFound
       end.

(** [e.Get(key)]; the value is nil (empty) when there is an error.
    [None] is the panic of a nil [e.db], here and below. *)
Definition Get (key : string) (e : Engine) : option (string * option error) :=
  match db e with
  | None => None
  | Some d =>
      match tx_Get key d with
      | inl v => Some (v, None)
      | inr err => Some (EmptyString, Some err)
      end
  end.

(** [db.Update(func(tx) { return tx.Delete(key) })]; [tx.Delete] refuses
    the empty key and nothing is committed; deleting a key that is not
    there commits like any other delete. *)
Definition DB_Update_Delete (key : string) (d : DB) : DB * option error :=
  if String.eqb key EmptyString then (d, Some ErrEmptyKey)
  else match update_results d with
       | Some e :: rest => (mkDB (data d) rest (close_result d), Some e)
       | None :: rest => (mkDB (delete key (data d)) rest (close_result d), None)
       | [] => (mkDB (delete key (data d)) [] (close_result d), None)
       end.

(** [e.Del(key)] *)
Definition Del (key : string) (e : Engine) : option (Engine * option error) :=
  match db e with
  | None => None
  | Some d =>
      let '(d', r) := DB_Update_Delete key d in
      Some (mkEngine (Some d') (gcTicker e) (gcInterval e) (err e), r)
  end.

(** [e.Exists(key)]: a missing key is an answer, not an error. *)
Definition Exists (key : string) (e : Engine) : option (bool * option error) :=
  match db e with
  | None => None
  | Some d =>
      match tx_Get key d with
      | inl _ => Some (true, None)
      | inr err =>
          if decide (err = ErrKeyNotFound) then Some (false, None)
          else Some (false, Some err)
      end
  end.

(** [it.Seek(prefix)]: the iterator moves to the first key that is not
    below [prefix]. *)
Fixpoint seek (prefix : string) (items : list (string * string))
  : list (string * string) :=
  match items with
  | [] => []
  | (k, v) :: rest =>
      if String.ltb k prefix then seek prefix rest else items
  end.

(** [for ...; it.ValidForPrefix(prefix); it.Next()]: the keys met while
    they start with [prefix]. *)
Fixpoint scanPrefix (prefix : string) (items : list (string * string))
  : list string :=
  match items with
  | [] => []
  | (k, v) :: rest =>
      if String.prefix prefix k then k :: scanPrefix prefix rest else []
  end.

(** [e.GetKey(prefix)]; [prefix] is [None] for a nil slice. *)
Definition GetKey (prefix : option string) (e : Engine)
  : option (list string * option error) :=
  match db e with
  | None => None
  | Some d =>
      match prefix with
      | None => Some ((DB_items d).*1, None)
      | Some p => Some (scanPrefix p (seek p (DB_items d)), None)
      end
  end.

End store_func.

(** ** Consistency of the tree with the store *)

Module consistency.
Import participle.

Section Engine.
Context `{Tokenizer}.

(** The tree and the store hold the same words. *)
Definition synced (d : Engine) : Prop :=
  ∃ store, badger.db (dbEngine d) = Some store
           ∧ ∀ c, containsWord c d = true ↔ is_Some (badger.data store !! c).

(** The tree holds the words of the store and [content] besides. *)
Definition ahead_by (content : string) (d : Engine) : Prop :=
  ∃ store, badger.db (dbEngine d) = Some store
           ∧ ∀ c, containsWord c d = true
                  ↔ c = content ∨ is_Some (badger.data store !! c).
End Engine.

End consistency.

(** ** Invariants of the engine's goroutines *)

Module lifecycle.
Import badger.

(** The heap of timers holds no running ticker but the one [e.gcTicker]
    points to, and none at all before [listenerGC] has started. *)
Definition one_ticker_runs (w : World) : Prop :=
  (gcState w = GCInit → timers w = [])
  ∧ ∀ i t, timers w !! i = Some t → running t = true →
           gcTicker (eng w) = Some i.

(** The interval in force is a duration [time.NewTicker] accepts. *)
Definition interval_positive (w : World) : Prop := 0 < gcInterval (eng w).

(** Once [listenerClose] has run its body, [e.db] is nil. *)
Definition closed_db (w : World) : Prop :=
  match listenerState w with
  | LAcking | LDone => db (eng w) = None
  | _ => True
  end.

End lifecycle.

(** ** unicode/utf8: encoding of a rune

    Transcribed from the Go standard library ([utf8.AppendRune]); it is
    what [string(r)] and [strings.Builder.WriteRune] produce. *)

Module utf8enc.

Definition rune1Max : Z := 0x7F.
Definition rune2Max : Z := 0x7FF.
Definition rune3Max : Z := 0xFFFF.
Definition MaxRune : Z := 0x10FFFF.
Definition surrogateMin : Z := 0xD800.
Definition surrogateMax : Z := 0xDFFF.

Definition tx : Z := 0x80.
Definition t2 : Z := 0xC0.
Definition t3 : Z := 0xE0.
Definition t4 : Z := 0xF0.

(** [uint32(r)] and [byte(x)]: the conversions truncate. *)
Definition uint32 (r : Z) : Z := r mod 2 ^ 32.
Definition byte (x : Z) : Z := x mod 2 ^ 8.

(** The character holding a byte value. *)
Definition chr (b : Z) : ascii := ascii_of_N (Z.to_N b).

Definition bytes1 (b0 : Z) : string := String (chr b0) EmptyString.
Definition bytes2 (b0 b1 : Z) : string := String (chr b0) (bytes1 b1).
Definition bytes3 (b0 b1 b2 : Z) : string := String (chr b0) (bytes2 b1 b2).
Definition bytes4 (b0 b1 b2 b3 : Z) : string := String (chr b0) (bytes3 b1 b2 b3).

Definition AppendRune (p : string) (r : Z) : string :=
  if uint32 r <=? rune1Max then (p ++ bytes1 (byte r))%string
  else
    let i := uint32 r in
    if i <=? rune2Max then
      (p ++ bytes2 (Z.lor t2 (byte (Z.shiftr r 6)))
                   (Z.lor tx (Z.land (byte r) utf8.maskx)))%string
    else if (i <? surrogateMin) || ((surrogateMax <? i) && (i <=? rune3Max)) then
      (p ++ bytes3 (Z.lor t3 (byte (Z.shiftr r 12)))
                   (Z.lor tx (Z.land (byte (Z.shiftr r 6)) utf8.maskx))
                   (Z.lor tx (Z.land (byte r) utf8.maskx)))%string
    else if (rune3Max <? i) && (i <=? MaxRune) then
      (p ++ bytes4 (Z.lor t4 (byte (Z.shiftr r 18)))
                   (Z.lor tx (Z.land (byte (Z.shiftr r 12)) utf8.maskx))
                   (Z.lor tx (Z.land (byte (Z.shiftr r 6)) utf8.maskx))
                   (Z.lor tx (Z.land (byte r) utf8.maskx)))%string
    else (p ++ bytes3 0xEF 0xBF 0xBD)%string.

(** [string(r)] for a rune [r]. *)
Definition string_of_rune (r : Z) : string := AppendRune EmptyString r.

(** [string(rs)] for a slice of runes [rs]. *)
Definition string_of_runes (rs : list Z) : string :=
  fold_left AppendRune rs EmptyString.

(** The Unicode scalar values: the runes that are not surrogates. *)
Definition valid_rune (r : Z) : Prop :=
  0 ≤ r ≤ MaxRune ∧ ¬ (surrogateMin ≤ r ≤ surrogateMax).

(** Decoding the encoding of [r] gives [r] back and consumes all of it,
    and the first byte announces the length. *)
Definition roundtrips (r : Z) : bool :=
  let s := string_of_rune r in
  let '(r', n) := utf8.DecodeRuneInString s in
  let x := utf8.first (byte_at 0 s) in
  (r' =? r) && (n =? String.length s)%nat
  && ((utf8.as_ <=? x) || (Z.to_nat (Z.land x 7) =? String.length s)%nat).

(** [f] holds of [z], [z + 1], ... [z + fuel - 1]. *)
Fixpoint all_from (fuel : nat) (z : Z) (f : Z → bool) : bool :=
  match fuel with
  | O => true
  | S k => f z && all_from k (z + 1) f
  end.

End utf8enc.

(** ** The address example: splitting an input at its special characters *)

Module address.
Import participle utf8enc.

Section Split.
Context `{CharClass}.

(** The loop of [splitBySpecialChar] over the runes of the input, with
    the parts made so far and the part being built. *)
Fixpoint splitBySpecialChar_loop (rs : list Z) (parts : list string)
         (currentPart : string) : list string * string :=
  match rs with
  | [] => (parts, currentPart)
  | r :: rest =>
      if IsSpecialChar (string_of_rune r) then
        if (0 <? String.length currentPart)%nat then
          splitBySpecialChar_loop rest (parts ++ [currentPart]) EmptyString
        else splitBySpecialChar_loop rest parts currentPart
      else splitBySpecialChar_loop rest parts (AppendRune currentPart r)
  end.

(** [for _, r := range s] meets the runes as [utf8.DecodeRuneInString]
    decodes them. *)
Definition splitBySpecialChar (s : string) : list string :=
  let '(parts, currentPart) := splitBySpecialChar_loop (runes s) [] EmptyString in
  if (0 <? String.length currentPart)%nat then parts ++ [currentPart] else parts.
End Split.

Fixpoint removeEmptyStrings_loop (slice result : list string) : list string :=
  match slice with
  | [] => result
  | str :: rest =>
      if negb (String.eqb str EmptyString) then
        removeEmptyStrings_loop rest (result ++ [str])
      else removeEmptyStrings_loop rest result
  end.

Definition removeEmptyStrings (slice : list string) : list string :=
  removeEmptyStrings_loop slice [].

End address.

(** * Facts *)

(** ** Strings and UTF-8 decoding *)

Section StringFacts.
Local Open Scope nat_scope.

Lemma string_take_drop (n : nat) (s : string) :
  (string_take n s ++ string_drop n s)%string = s.
Proof.
  revert s; induction n as [|n IH]; intros [|c r]; simpl; try reflexivity.
  change (String c (string_take n r +:+ string_drop n r) = String c r).
  f_equal. apply IH.
Qed.

Lemma string_drop_length (n : nat) (s : string) :
  String.length (string_drop n s) = String.length s - n.
Proof.
  revert s; induction n as [|n IH]; intros [|c r]; simpl; auto.
Qed.

Lemma string_take_nonempty (n : nat) (s : string) :
  1 <= n → s ≠ EmptyString → string_take n s ≠ EmptyString.
Proof. destruct n, s; simpl; intros; try lia; congruence. Qed.

Lemma first_small (b : Z) :
  (utf8.as_ <=? utf8.first b)%Z = false →
  2 <= Z.to_nat (Z.land (utf8.first b) 7).
Proof.
  unfold utf8.first.
  repeat match goal with
         | |- context [if ?c then _ else _] => destruct c
         end; vm_compute; intros; try discriminate; lia.
Qed.

(** A non-empty string always loses between one byte and all of them. *)
Lemma DecodeRuneInString_size (s : string) :
  s ≠ EmptyString →
  1 <= snd (utf8.DecodeRuneInString s) <= String.length s.
Proof.
  intros Hs.
  assert (Hlen : 1 <= String.length s) by (destruct s; simpl; [congruence | lia]).
  unfold utf8.DecodeRuneInString.
  destruct (String.length s <? 1) eqn:E0; [apply Nat.ltb_lt in E0; lia|].
  destruct (utf8.as_ <=? utf8.first (byte_at 0 s))%Z eqn:E1; [simpl; lia|].
  pose proof (first_small _ E1) as Hsz.
  repeat match goal with
         | |- context [if ?c then _ else _] =>
             let E := fresh "E" in destruct c eqn:E; simpl; try lia
         end;
    repeat match goal with
           | E : (_ <? _) = false |- _ => apply Nat.ltb_ge in E
           | E : (_ <=? _) = false |- _ => apply Nat.leb_gt in E
           | E : (_ <=? _) = true |- _ => apply Nat.leb_le in E
           end; lia.
Qed.
End StringFacts.

(** ** SplitString *)

Section SplitStringFacts.
Import participle.
Local Open Scope nat_scope.

Lemma SplitString_loop_acc (fuel : nat) (s : string) (r : list string) :
  SplitString_loop fuel s r = r ++ SplitString_loop fuel s [].
Proof.
  revert s r; induction fuel as [|fuel IH]; intros s r; simpl.
  - now rewrite app_nil_r.
  - destruct (0 <? String.length s); [|now rewrite app_nil_r].
    destruct (utf8.DecodeRuneInString s) as [rn size].
    rewrite (IH _ (r ++ _)), (IH _ [_]). now rewrite <- app_assoc.
Qed.

Lemma SplitString_loop_any_fuel (f1 f2 : nat) (s : string) :
  String.length s <= f1 → String.length s <= f2 →
  SplitString_loop f1 s [] = SplitString_loop f2 s [].
Proof.
  revert f2 s; induction f1 as [|f1 IH]; intros f2 s H1 H2.
  - destruct s; [|simpl in H1; lia]. destruct f2; reflexivity.
  - destruct f2 as [|f2].
    + destruct s; [reflexivity | simpl in H2; lia].
    + simpl. destruct (0 <? String.length s) eqn:E; [|reflexivity].
      apply Nat.ltb_lt in E.
      assert (Hs : s ≠ EmptyString) by (intros ->; simpl in E; lia).
      pose proof (DecodeRuneInString_size s Hs) as Hsz.
      destruct (utf8.DecodeRuneInString s) as [rn size]; simpl in Hsz.
      rewrite SplitString_loop_acc, (SplitString_loop_acc f2).
      f_equal. apply IH; rewrite string_drop_length; lia.
Qed.

(** The fuel given by [SplitString] is never what ends the loop. *)
Lemma SplitString_loop_fuel (fuel : nat) (s : string) :
  String.length s <= fuel →
  SplitString_loop fuel s [] = SplitString s.
Proof. intros; apply SplitString_loop_any_fuel; lia. Qed.

Lemma SplitString_empty : SplitString EmptyString = [].
Proof. reflexivity. Qed.

Lemma SplitString_cons (s : string) :
  s ≠ EmptyString →
  SplitString s =
    string_take (snd (utf8.DecodeRuneInString s)) s
      :: SplitString (string_drop (snd (utf8.DecodeRuneInString s)) s).
Proof.
  intros Hs. pose proof (DecodeRuneInString_size s Hs) as Hsz.
  unfold SplitString at 1.
  destruct (String.length s) as [|k] eqn:Hk; [lia|].
  simpl. rewrite Hk. simpl.
  destruct (utf8.DecodeRuneInString s) as [rn size]; simpl in *.
  rewrite SplitString_loop_acc. simpl. f_equal.
  apply SplitString_loop_fuel. rewrite string_drop_length. lia.
Qed.

Lemma SplitString_nil_iff (s : string) : SplitString s = [] ↔ s = EmptyString.
Proof.
  split; [|intros ->; reflexivity].
  intros Hnil. destruct s as [|c r]; [reflexivity|].
  rewrite SplitString_cons in Hnil by discriminate. discriminate.
Qed.

(** The pieces are never empty and, put back together, give the string. *)
Lemma SplitString_join (s : string) :
  foldr String.append EmptyString (SplitString s) = s.
Proof.
  remember (String.length s) as n eqn:Hn.
  revert s Hn; induction n as [n IH] using lt_wf_ind; intros s Hn.
  destruct s as [|c r]; [reflexivity|].
  rewrite SplitString_cons by discriminate.
  pose proof (DecodeRuneInString_size (String c r) ltac:(discriminate)) as Hsz.
  set (sz := snd (utf8.DecodeRuneInString (String c r))) in *.
  cbn [foldr].
  rewrite (IH (String.length (string_drop sz (String c r)))); try reflexivity.
  - apply string_take_drop.
  - rewrite string_drop_length. lia.
Qed.

Lemma SplitString_inj (s1 s2 : string) :
  SplitString s1 = SplitString s2 → s1 = s2.
Proof.
  intros Heq.
  rewrite <- (SplitString_join s1), <- (SplitString_join s2).
  now rewrite Heq.
Qed.
End SplitStringFacts.

(** ** The trie *)

Section TrieFacts.
Import participle.

Lemma elem_of_rev {A : Type} (x : A) (l : list A) : x ∈ rev l ↔ x ∈ l.
Proof. rewrite !list_elem_of_In. symmetry. apply in_rev. Qed.

Lemma walk_NewTrieNode (path : list string) (n : TrieNode) :
  walk path NewTrieNode = Some n → path = [] ∧ n = NewTrieNode.
Proof.
  destruct path as [|c p]; simpl.
  - intros [= <-]; auto.
  - rewrite lookup_empty. discriminate.
Qed.

Lemma containsWord_loop_NewTrieNode (path : list string) :
  containsWord_loop path NewTrieNode = false.
Proof. destruct path; simpl; [reflexivity | now rewrite lookup_empty]. Qed.

(** [containsWord] answers whether the walk ends on a terminal node. *)
Lemma containsWord_loop_walk (path : list string) (t : TrieNode) :
  containsWord_loop path t = true ↔
  ∃ n, walk path t = Some n ∧ IsEnd n = true.
Proof.
  revert t; induction path as [|c p IH]; intros t; simpl.
  - split; [eauto | intros (n & [= <-] & Hn); exact Hn].
  - destruct (Children t !! c) as [ch|]; [apply IH|].
    split; [discriminate | intros (n & Hn & _); discriminate].
Qed.


(** The node at the end of the inserted path is terminal and holds the entry. *)
Lemma walk_trieInsert_same (path : list string) (e : DictEntry) (t : TrieNode) :
  ∃ n, walk path (trieInsert path e t) = Some n
       ∧ IsEnd n = true ∧ Entry n = Some e.
Proof.
  revert t; induction path as [|c p IH]; intros t; simpl.
  - eexists; split; [reflexivity | auto].
  - rewrite lookup_insert_eq. apply IH.
Qed.

(** Nodes on other paths keep their mark and their entry. *)
Lemma walk_trieInsert_other (p q : list string) (e : DictEntry) (t n : TrieNode) :
  p ≠ q → walk p t = Some n →
  ∃ n', walk p (trieInsert q e t) = Some n'
        ∧ IsEnd n' = IsEnd n ∧ Entry n' = Entry n.
Proof.
  revert p t n; induction q as [|c q IH]; intros p t n Hne Hw.
  - destruct p as [|c' p]; [congruence|]. simpl in *. eauto.
  - destruct p as [|c' p]; simpl in *.
    + injection Hw as <-. eexists; split; [reflexivity | auto].
    + destruct (decide (c = c')) as [->|Hc].
      * rewrite lookup_insert_eq.
        destruct (Children t !! c') as [ch|]; [|discriminate].
        apply IH; [congruence | exact Hw].
      * rewrite lookup_insert_ne by exact Hc.
        destruct (Children t !! c') as [ch|]; [eauto | discriminate].
Qed.

(** Looking up a word is not affected by the insertion of another. *)
Lemma containsWord_loop_trieInsert_other (p q : list string) (e : DictEntry) (t : TrieNode) :
  p ≠ q →
  containsWord_loop p (trieInsert q e t) = containsWord_loop p t.
Proof.
  revert p t; induction q as [|c q IH]; intros p t Hne.
  - destruct p as [|c' p]; [congruence | reflexivity].
  - destruct p as [|c' p]; simpl; [reflexivity|].
    destruct (decide (c = c')) as [->|Hc].
    + rewrite lookup_insert_eq, IH by congruence.
      destruct (Children t !! c'); [reflexivity|].
      apply containsWord_loop_NewTrieNode.
    + now rewrite lookup_insert_ne by exact Hc.
Qed.

Lemma containsWord_loop_trieInsert_same (p : list string) (e : DictEntry) (t : TrieNode) :
  containsWord_loop p (trieInsert p e t) = true.
Proof.
  apply containsWord_loop_walk.
  destruct (walk_trieInsert_same p e t) as (n & Hn & Hend & _). eauto.
Qed.

Lemma node_inv_NewTrieNode : node_inv NewTrieNode.
Proof.
  intros path n Hw. apply walk_NewTrieNode in Hw as [_ ->]. simpl.
  split; [discriminate | congruence].
Qed.

Lemma node_inv_child (t ch : TrieNode) (c : string) :
  node_inv t → Children t !! c = Some ch → node_inv ch.
Proof.
  intros Ht Hc path n Hw. apply (Ht (c :: path)). simpl. now rewrite Hc.
Qed.

Lemma node_inv_trieInsert (q : list string) (e : DictEntry) (t : TrieNode) :
  node_inv t → node_inv (trieInsert q e t).
Proof.
  revert t; induction q as [|c q IH]; intros t Ht path n Hw.
  - destruct path as [|c' p]; simpl in Hw.
    + injection Hw as <-. simpl. split; [discriminate | reflexivity].
    + apply (Ht (c' :: p)). exact Hw.
  - destruct path as [|c' p]; simpl in Hw.
    + injection Hw as <-. simpl. apply (Ht []). reflexivity.
    + destruct (decide (c = c')) as [->|Hc].
      * rewrite lookup_insert_eq in Hw.
        revert Hw. apply IH.
        destruct (Children t !! c') as [ch|] eqn:Hch.
        -- eapply node_inv_child; eauto.
        -- apply node_inv_NewTrieNode.
      * rewrite lookup_insert_ne in Hw by exact Hc.
        apply (Ht (c' :: p)). exact Hw.
Qed.

Lemma IsEnd_trieInsert_nonempty (q : list string) (e : DictEntry) (t : TrieNode) :
  q ≠ [] → IsEnd (trieInsert q e t) = IsEnd t.
Proof. destruct q; [congruence | reflexivity]. Qed.
End TrieFacts.

(** ** The store *)

Section StoreFacts.
Import badger.

Lemma DB_items_NoDup (d : DB) : NoDup (DB_items d).*1.
Proof.
  unfold DB_items. rewrite merge_sort_Permutation.
  apply NoDup_fst_map_to_list.
Qed.

Lemma elem_of_DB_items (d : DB) (k v : string) :
  (k, v) ∈ DB_items d ↔ data d !! k = Some v.
Proof.
  unfold DB_items. rewrite merge_sort_Permutation.
  apply elem_of_map_to_list.
Qed.

(** A committed write is what the next scan finds under the key; a
    failed one changes nothing. *)
Lemma DB_Update_Set_data (key value : string) (d d' : DB) (r : option error) :
  DB_Update_Set key value d = (d', r) →
  data d' = match r with
            | None => <[key := value]> (data d)
            | Some _ => data d
            end.
Proof.
  unfold DB_Update_Set.
  destruct (update_results d) as [|[e|] rest]; intros [= <- <-]; reflexivity.
Qed.

Lemma DB_Update_Set_fails (key value : string) (d : DB) (e : error)
      (rest : list (option error)) :
  update_results d = Some e :: rest →
  DB_Update_Set key value d = (mkDB (data d) rest (close_result d), Some e).
Proof. unfold DB_Update_Set. now intros ->. Qed.
End StoreFacts.

(** ** The dictionary engine *)

Section EngineFacts.
Import participle.
Context `{CharClass} `{Codec} `{Tokenizer}.

Lemma loadItems_insertAll (items : list (string * string)) (t : TrieNode) :
  fst (loadItems items t) = insertAll (decodedItems items) t.
Proof.
  revert t; induction items as [|[k v] rest IH]; intros t; simpl; [reflexivity|].
  destruct (Unmarshal v); [apply IH | reflexivity].
Qed.

Lemma loadItems_keeps (k : string) (items : list (string * string))
      (t t' n : TrieNode) (r : option error) :
  loadItems items t = (t', r) → k ∉ items.*1 →
  walk (SplitString k) t = Some n →
  ∃ n', walk (SplitString k) t' = Some n'
        ∧ IsEnd n' = IsEnd n ∧ Entry n' = Entry n.
Proof.
  revert t n; induction items as [|[k0 v0] rest IH]; intros t n Hload Hk Hw; simpl in *.
  - injection Hload as <- <-. eauto.
  - apply not_elem_of_cons in Hk as [Hne Hk].
    destruct (Unmarshal v0) as [e0|e0].
    + destruct (walk_trieInsert_other (SplitString k) (SplitString k0) e0 t n)
        as (n1 & Hw1 & E1 & E2); [|exact Hw|].
      { intros Heq. apply Hne. now apply SplitString_inj. }
      destruct (IH _ _ Hload Hk Hw1) as (n' & Hw' & E1' & E2').
      exists n'. repeat split; congruence.
    + injection Hload as <- <-. eauto.
Qed.

Lemma loadItems_finds (items : list (string * string)) (t t' : TrieNode)
      (k v : string) (e : DictEntry) :
  loadItems items t = (t', None) → NoDup items.*1 →
  (k, v) ∈ items → Unmarshal v = inl e →
  ∃ n, walk (SplitString k) t' = Some n ∧ IsEnd n = true ∧ Entry n = Some e.
Proof.
  revert t; induction items as [|[k0 v0] rest IH]; intros t Hload Hnd Hin Hdec.
  - inversion Hin.
  - simpl in Hload. rewrite fmap_cons in Hnd. apply NoDup_cons in Hnd as [Hk0 Hnd].
    apply elem_of_cons in Hin as [[= -> ->]|Hin].
    + rewrite Hdec in Hload.
      destruct (walk_trieInsert_same (SplitString k0) e t) as (n & Hw & E1 & E2).
      destruct (loadItems_keeps k0 rest _ _ _ _ Hload Hk0 Hw) as (n' & Hw' & E1' & E2').
      exists n'. repeat split; congruence.
    + destruct (Unmarshal v0) as [e0|e0]; [|discriminate].
      eapply IH; eauto.
Qed.

Lemma node_inv_insertAll (ops : list (string * DictEntry)) (t : TrieNode) :
  node_inv t → node_inv (insertAll ops t).
Proof.
  revert t; induction ops as [|[c e] ops IH]; intros t Ht; simpl; [exact Ht|].
  apply IH. now apply node_inv_trieInsert.
Qed.

Lemma containsWord_loop_insertAll (p : string) (ops : list (string * DictEntry))
      (t : TrieNode) :
  containsWord_loop (SplitString p) (insertAll ops t) = true ↔
  p ∈ ops.*1 ∨ containsWord_loop (SplitString p) t = true.
Proof.
  revert t; induction ops as [|[c e] ops IH]; intros t; simpl.
  - rewrite elem_of_nil. tauto.
  - rewrite IH, elem_of_cons. simpl.
    destruct (decide (p = c)) as [->|Hne].
    + rewrite containsWord_loop_trieInsert_same. tauto.
    + rewrite containsWord_loop_trieInsert_other; [tauto|].
      intros Heq. apply Hne. now apply SplitString_inj.
Qed.

Lemma IsEnd_insertAll (ops : list (string * DictEntry)) (t : TrieNode) :
  Forall (λ c, c ≠ EmptyString) ops.*1 →
  IsEnd (insertAll ops t) = IsEnd t.
Proof.
  revert t; induction ops as [|[c e] ops IH]; intros t Hne; simpl; [reflexivity|].
  rewrite fmap_cons in Hne. apply Forall_cons in Hne as [Hc Hne].
  rewrite IH by exact Hne. apply IsEnd_trieInsert_nonempty.
  intros Hnil. apply Hc. now apply SplitString_nil_iff.
Qed.

(** A built tree is a fresh root after a list of insertions. *)
Lemma built_insertAll (cs : list string) (t : TrieNode) :
  built cs t →
  ∃ ops, t = insertAll ops NewTrieNode ∧ cs = rev ops.*1.
Proof.
  induction 1 as [|cs t content entry _ (ops & -> & ->)|cs t items _ (ops & -> & ->)].
  - exists []. auto.
  - exists (ops ++ [(content, entry)]). split.
    + unfold insertAll. now rewrite fold_left_app.
    + rewrite fmap_app, rev_app_distr. reflexivity.
  - exists (ops ++ decodedItems items). split.
    + rewrite loadItems_insertAll. unfold insertAll. now rewrite fold_left_app.
    + rewrite fmap_app, rev_app_distr. reflexivity.
Qed.

Lemma insertIntoTrieAndDB_root (content : string) (entry : DictEntry)
      (d d' : Engine) (r : option error) :
  insertIntoTrieAndDB content entry d = Some (d', r) →
  root d' = trieInsert (SplitString content) entry (root d).
Proof.
  unfold insertIntoTrieAndDB.
  destruct (Marshal entry) as [data|e]; [|intros [= <- <-]; reflexivity].
  destruct (badger.Set_ content data (dbEngine d)) as [[be r']|]; [|discriminate].
  intros [= <- <-]. reflexivity.
Qed.

(** What a successful [AddWord] did. *)
Lemma AddWord_ok (content : string) (frequency : float) (pos : string)
      (d d' : Engine) :
  AddWord content frequency pos d = Some (d', None) →
  root d' = trieInsert (SplitString content) (mkDictEntry content frequency pos) (root d)
  ∧ ∃ s s' data,
      badger.db (dbEngine d) = Some s
      ∧ Marshal (mkDictEntry content frequency pos) = inl data
      ∧ badger.db (dbEngine d') = Some s'
      ∧ badger.data s' = <[content := data]> (badger.data s).
Proof.
  unfold AddWord, insertIntoTrieAndDB, badger.Set_.
  destruct (Marshal _) as [data|e]; [|discriminate].
  destruct (badger.db (dbEngine d)) as [s|] eqn:Hdb; [|discriminate].
  destruct (badger.DB_Update_Set content data s) as [s' r] eqn:Hup.
  destruct r as [e|]; [discriminate|].
  intros [= <-]. simpl. split; [reflexivity|].
  exists s, s', data. repeat split; try reflexivity.
  now rewrite (DB_Update_Set_data _ _ _ _ _ Hup).
Qed.
End EngineFacts.

(** ** The claims on the dictionary *)

Section DictionaryClaims.
Import participle.
Context `{CharClass} `{Codec} `{Tokenizer}.

(** C1 (round trip).  When [AddWord content frequency tag] succeeds for a
    non-empty [content] whose entry the codec gives back as it was, a
    fresh bootstrap from the store that completes yields a tree in which
    [containsWord content] is true and the terminal node of [content]
    holds exactly the entry [{content, frequency, tag}]. *)
Theorem C1_AddWord_Bootstrap_roundtrip
        (d d' : Engine) (content : string) (frequency : float) (tag : string)
        (store : badger.DB) (root' : TrieNode) :
  content ≠ EmptyString →
  (∀ data, Marshal (mkDictEntry content frequency tag) = inl data →
           Unmarshal data = inl (mkDictEntry content frequency tag)) →
  AddWord content frequency tag d = Some (d', None) →
  badger.db (dbEngine d') = Some store →
  Bootstrap store = (root', None) →
  containsWord content (mkEngine (dbEngine d') (segmenter d') root') = true
  ∧ ∃ n, walk (SplitString content) root' = Some n
         ∧ IsEnd n = true
         ∧ Entry n = Some (mkDictEntry content frequency tag).
Proof.
  intros _ Hcodec Hadd Hstore Hboot.
  apply AddWord_ok in Hadd as (_ & s & s' & data & _ & Hm & Hs' & Hdata).
  assert (s' = store) as -> by congruence.
  assert (Hin : (content, data) ∈ badger.DB_items store).
  { apply elem_of_DB_items. rewrite Hdata. apply lookup_insert_eq. }
  destruct (loadItems_finds _ _ _ _ _ _ Hboot (DB_items_NoDup store) Hin (Hcodec _ Hm))
    as (n & Hw & Hend & Hentry).
  split; [|eauto].
  unfold containsWord; simpl. apply containsWord_loop_walk. eauto.
Qed.


(** C7, as amended (no rollback).  When the write of [AddWord] fails, the
    call returns the wrapped error, the tree has the word, its terminal
    node holds the new entry, and the store is as it was before the call. *)
Theorem C7_failed_write_no_rollback
        (d : Engine) (content : string) (frequency : float) (pos : string)
        (store : badger.DB) (data : string) (e : error)
        (rest : list (option error)) :
  badger.db (dbEngine d) = Some store →
  Marshal (mkDictEntry content frequency pos) = inl data →
  badger.update_results store = Some e :: rest →
  ∃ d' store',
    AddWord content frequency pos d
      = Some (d', Some (ErrWrap "save content to db fail" e))
    ∧ containsWord content d' = true
    ∧ (∃ n, walk (SplitString content) (root d') = Some n
            ∧ IsEnd n = true
            ∧ Entry n = Some (mkDictEntry content frequency pos))
    ∧ badger.db (dbEngine d') = Some store'
    ∧ badger.data store' = badger.data store.
Proof.
  intros Hdb Hm Hscript.
  unfold AddWord, insertIntoTrieAndDB, badger.Set_.
  rewrite Hm, Hdb, (DB_Update_Set_fails _ _ _ _ _ Hscript).
  eexists _, _. split; [reflexivity|]. simpl. split; [|split; [|split]].
  - unfold containsWord; simpl. apply containsWord_loop_trieInsert_same.
  - apply walk_trieInsert_same.
  - reflexivity.
  - reflexivity.
Qed.

(** C9 (invariant).  In every tree built from a fresh root by insertions
    and by scans of a store, complete or cut short by an error, every
    node is terminal if and only if it holds an entry. *)
Theorem C9_IsEnd_iff_Entry (cs : list string) (t : TrieNode) :
  built cs t →
  ∀ path n, walk path t = Some n → (IsEnd n = true ↔ Entry n ≠ None).
Proof.
  intros Hbuilt. apply built_insertAll in Hbuilt as (ops & -> & _).
  apply node_inv_insertAll, node_inv_NewTrieNode.
Qed.

(** C10 (the root and the empty word).  While every content inserted is
    non-empty, the root is not terminal and [containsWord EmptyString] is false;
    the insertion of the empty content marks the root itself, and
    [containsWord EmptyString] is true from then on. *)
Theorem C10_root_and_empty_content (d : Engine) :
  (∀ cs, built cs (root d) → Forall (λ c, c ≠ EmptyString) cs →
         IsEnd (root d) = false ∧ containsWord EmptyString d = false)
  ∧ (∀ entry d' r,
       insertIntoTrieAndDB EmptyString entry d = Some (d', r) →
       IsEnd (root d') = true ∧ containsWord EmptyString d' = true).
Proof.
  split.
  - intros cs Hbuilt Hne.
    apply built_insertAll in Hbuilt as (ops & Hroot & ->).
    assert (Hend : IsEnd (root d) = false).
    { rewrite Hroot. rewrite IsEnd_insertAll; [reflexivity|].
      apply Forall_forall. intros c Hc.
      rewrite Forall_forall in Hne. apply Hne. now apply elem_of_rev. }
    split; [exact Hend|]. exact Hend.
  - intros entry d' r Hins.
    apply insertIntoTrieAndDB_root in Hins.
    unfold containsWord. rewrite Hins. simpl. auto.
Qed.
End DictionaryClaims.

(** ** The engine lifecycle *)

Section LifecycleFacts.
Import badger.

Lemma stopGcTicker_fields (w : World) :
  db (eng (stopGcTicker w)) = db (eng w)
  ∧ err (eng (stopGcTicker w)) = err (eng w)
  ∧ gcTicker (eng (stopGcTicker w)) = gcTicker (eng w)
  ∧ gcInterval (eng (stopGcTicker w)) = gcInterval (eng w)
  ∧ closeState (stopGcTicker w) = closeState w
  ∧ listenerState (stopGcTicker w) = listenerState w
  ∧ gcState (stopGcTicker w) = gcState w
  ∧ requests (stopGcTicker w) = requests w
  ∧ gcRuns (stopGcTicker w) = gcRuns w
  ∧ length (timers (stopGcTicker w)) = length (timers w).
Proof.
  unfold stopGcTicker. destruct (gcTicker (eng w)) eqn:E; simpl;
    repeat split; try congruence.
  apply length_alter.
Qed.

Lemma startGcTicker_fields (w : World) :
  db (eng (startGcTicker w)) = db (eng w)
  ∧ err (eng (startGcTicker w)) = err (eng w)
  ∧ gcInterval (eng (startGcTicker w)) = gcInterval (eng w)
  ∧ closeState (startGcTicker w) = closeState w
  ∧ listenerState (startGcTicker w) = listenerState w
  ∧ gcState (startGcTicker w) = gcState w
  ∧ requests (startGcTicker w) = requests w
  ∧ gcRuns (startGcTicker w) = gcRuns w.
Proof.
  unfold startGcTicker. destruct (NewTicker _); simpl; repeat split.
Qed.

Lemma updateGcInterval_fields (d : Z) (w : World) :
  db (eng (updateGcInterval d w)) = db (eng w)
  ∧ err (eng (updateGcInterval d w)) = err (eng w)
  ∧ closeState (updateGcInterval d w) = closeState w
  ∧ listenerState (updateGcInterval d w) = listenerState w
  ∧ gcState (updateGcInterval d w) = gcState w
  ∧ requests (updateGcInterval d w) = requests w
  ∧ gcRuns (updateGcInterval d w) = gcRuns w.
Proof.
  unfold updateGcInterval.
  set (w1 := set_eng _ w).
  pose proof (stopGcTicker_fields w1) as (S1 & S2 & S3 & S4 & S5 & S6 & S7 & S8 & S9 & S10).
  pose proof (startGcTicker_fields (stopGcTicker w1)) as (T1 & T2 & T3 & T4 & T5 & T6 & T7 & T8).
  destruct (crashed (stopGcTicker w1)); subst w1; simpl in *;
    repeat split; congruence.
Qed.

Lemma RunValueLogGC_takeGcTick_fields (w : World) :
  let w' := RunValueLogGC (takeGcTick w) in
  db (eng w') = db (eng w)
  ∧ err (eng w') = err (eng w)
  ∧ closeState w' = closeState w
  ∧ listenerState w' = listenerState w
  ∧ requests w' = requests w.
Proof.
  unfold RunValueLogGC, takeGcTick.
  destruct (gcTicker (eng w)) eqn:E1; simpl;
    destruct (db (eng w)) eqn:E2; simpl; repeat split; congruence.
Qed.

(** The handshake only reads these fields. *)
Lemma handshake_inv_ext (d0 : DB) (w w' : World) :
  closeState w' = closeState w → listenerState w' = listenerState w →
  requests w' = requests w → db (eng w') = db (eng w) →
  err (eng w') = err (eng w) →
  handshake_inv d0 w → handshake_inv d0 w'.
Proof.
  unfold handshake_inv. intros -> -> -> -> ->. exact id.
Qed.

Lemma handshake_inv_step (d0 : DB) (ev : Event) (w w' : World) :
  handshake_inv d0 w → step ev w = Some w' → handshake_inv d0 w'.
Proof.
  unfold step. intros Hinv Hstep.
  destruct (crashed w); [discriminate|].
  destruct ev.
  - destruct (gcState w); [|discriminate]. injection Hstep as <-.
    pose proof (startGcTicker_fields w) as (T1 & T2 & T3 & T4 & T5 & T6 & T7 & T8).
    revert Hinv. apply handshake_inv_ext; simpl; congruence.
  - destruct (0 <=? dt); [|discriminate]. injection Hstep as <-.
    revert Hinv. unfold handshake_inv. simpl.
    destruct (closeState w) as [|t| |[] v]; exact id.
  - destruct (gcState w); [discriminate|].
    destruct (gcTickReady w); [|discriminate]. injection Hstep as <-.
    pose proof (RunValueLogGC_takeGcTick_fields w) as (R1 & R2 & R3 & R4 & R5).
    revert Hinv. apply handshake_inv_ext; assumption.
  - destruct (SetGCInterval d) as [n|]; [|injection Hstep as <-; exact Hinv].
    destruct (gcState w); [discriminate|]. injection Hstep as <-.
    pose proof (updateGcInterval_fields n w) as (U1 & U2 & U3 & U4 & U5 & U6 & U7).
    revert Hinv. apply handshake_inv_ext; assumption.
  - unfold handshake_inv in *.
    destruct (closeState w); try discriminate.
    destruct (listenerState w); try discriminate.
    injection Hstep as <-. simpl. intuition.
  - unfold handshake_inv in *.
    destruct (listenerState w) eqn:EL; try discriminate.
    injection Hstep as <-. unfold listenerCloseBody.
    destruct (closeState w) as [|t| |[] v] eqn:EC; try contradiction.
    + destruct Hinv as (R & Hdb & Herr). rewrite Hdb.
      match goal with |- context [stopGcTicker ?x] =>
        pose proof (stopGcTicker_fields x) as (S1 & S2 & S3 & S4 & S5 & S6 & S7 & S8 & S9 & S10)
      end.
      simpl in *. rewrite S5, S8, S2, Herr, EC. split; [exact R|].
      destruct (close_result d0); reflexivity.
    + destruct Hinv as (R & Herr & Hdb). rewrite Hdb.
      match goal with |- context [stopGcTicker ?x] =>
        pose proof (stopGcTicker_fields x) as (S1 & S2 & S3 & S4 & S5 & S6 & S7 & S8 & S9 & S10)
      end.
      simpl in *. rewrite S5, S8, S2, Herr, EC. split; [exact R|].
      destruct (close_result d0);
        [right; split; [reflexivity | discriminate] | left; reflexivity].
    + destruct Hinv as (R & Hv & Hdb). rewrite Hdb.
      match goal with |- context [stopGcTicker ?x] =>
        pose proof (stopGcTicker_fields x) as (S1 & S2 & S3 & S4 & S5 & S6 & S7 & S8 & S9 & S10)
      end.
      simpl in *. rewrite S5, S8, EC. auto.
  - unfold handshake_inv in *.
    destruct (closeState w); try discriminate.
    destruct (listenerState w); try discriminate.
    injection Hstep as <-. simpl. intuition.
  - unfold handshake_inv in *.
    destruct (closeState w) as [|t| |]; try discriminate.
    destruct (Second * 5 <=? t); [|discriminate].
    injection Hstep as <-. simpl.
    destruct (listenerState w); intuition.
  - unfold handshake_inv in *.
    destruct (closeState w); try discriminate.
    injection Hstep as <-. simpl.
    destruct (listenerState w); intuition.
Qed.

Lemma handshake_inv_run (d0 : DB) (evs : list Event) (w w' : World) :
  handshake_inv d0 w → run evs w = Some w' → handshake_inv d0 w'.
Proof.
  revert w; induction evs as [|ev evs IH]; intros w Hinv Hrun; simpl in Hrun.
  - now injection Hrun as <-.
  - destruct (step ev w) as [w1|] eqn:Hstep; [|discriminate].
    eapply IH; [|exact Hrun]. eapply handshake_inv_step; eauto.
Qed.

Lemma handshake_inv_new (d0 : DB) : handshake_inv d0 (new d0).
Proof. unfold handshake_inv. simpl. repeat split. Qed.
End LifecycleFacts.

Section LifecycleClaims.
Import badger.

Lemma ticker_inv_step (ev : Event) (w w' : World) :
  ticker_inv w → step ev w = Some w' → ticker_inv w'.
Proof.
  unfold step. intros Hinv Hstep.
  destruct (crashed w) eqn:Hc; [discriminate|].
  destruct ev.
  - destruct (gcState w); [|discriminate]. injection Hstep as <-.
    unfold startGcTicker. destruct (NewTicker _); intros Hc' _; simpl in *.
    + eexists; split; [reflexivity|]. rewrite length_app. simpl. lia.
    + discriminate.
  - destruct (0 <=? dt); [|discriminate]. injection Hstep as <-.
    intros Hc' Hg. simpl in *. destruct (Hinv Hc Hg) as (i & Hi & Hlt).
    exists i. now rewrite length_fmap.
  - destruct (gcState w) eqn:Hg; [discriminate|].
    destruct (gcTickReady w); [|discriminate]. injection Hstep as <-.
    destruct (Hinv Hc Hg) as (i & Hi & Hlt).
    unfold RunValueLogGC, takeGcTick. rewrite Hi. simpl.
    destruct (db (eng w)); intros Hc' _; simpl in *; [|discriminate].
    exists i. now rewrite length_alter.
  - destruct (SetGCInterval d) as [n|]; [|injection Hstep as <-; exact Hinv].
    destruct (gcState w) eqn:Hg; [discriminate|]. injection Hstep as <-.
    destruct (Hinv Hc Hg) as (i & Hi & Hlt).
    unfold updateGcInterval, stopGcTicker. simpl. rewrite Hi. simpl. rewrite Hc.
    unfold startGcTicker. simpl. destruct (NewTicker n); intros Hc' _; simpl in *.
    + eexists; split; [reflexivity|]. rewrite length_app. simpl. lia.
    + discriminate.
  - destruct (closeState w); try discriminate.
    destruct (listenerState w); try discriminate.
    injection Hstep as <-. exact Hinv.
  - destruct (listenerState w); try discriminate.
    injection Hstep as <-. intros Hc' Hg.
    unfold listenerCloseBody in *.
    destruct (db (eng w)); [|simpl in Hc'; discriminate].
    match type of Hg with
    | context [stopGcTicker ?x] =>
        pose proof (stopGcTicker_fields x)
          as (S1 & S2 & S3 & S4 & S5 & S6 & S7 & S8 & S9 & S10)
    end.
    simpl in *. rewrite S7 in Hg.
    destruct (Hinv Hc Hg) as (i & Hi & Hlt).
    exists i. rewrite S3, S10. auto.
  - destruct (closeState w); try discriminate.
    destruct (listenerState w); try discriminate.
    injection Hstep as <-. exact Hinv.
  - destruct (closeState w) as [|t| |]; try discriminate.
    destruct (Second * 5 <=? t); [|discriminate].
    injection Hstep as <-. exact Hinv.
  - destruct (closeState w); try discriminate.
    injection Hstep as <-. exact Hinv.
Qed.

Lemma ticker_inv_run (evs : list Event) (w w' : World) :
  ticker_inv w → run evs w = Some w' → ticker_inv w'.
Proof.
  revert w; induction evs as [|ev evs IH]; intros w Hinv Hrun; simpl in Hrun.
  - now injection Hrun as <-.
  - destruct (step ev w) as [w1|] eqn:Hstep; [|discriminate].
    eapply IH; [|exact Hrun]. eapply ticker_inv_step; eauto.
Qed.

Lemma ticker_inv_new (d0 : DB) : ticker_inv (new d0).
Proof. intros _ Hg. discriminate. Qed.

(** [updateGcInterval] written out, for a positive interval and a live ticker. *)
Lemma updateGcInterval_eq (d : Z) (w : World) (i : nat) :
  0 < d → crashed w = false → gcTicker (eng w) = Some i →
  updateGcInterval d w =
    mkWorld (mkEngine (db (eng w)) (Some (length (timers w))) d (err (eng w)))
            (alter Ticker_Stop i (timers w) ++ [mkTicker d true 0 false])
            (gcState w) (listenerState w) (closeState w)
            (requests w) (gcRuns w) false.
Proof.
  intros Hd Hc Hi.
  unfold updateGcInterval, stopGcTicker. simpl. rewrite Hi. simpl. rewrite Hc.
  unfold startGcTicker, NewTicker. simpl.
  destruct (d <=? 0) eqn:E; [apply Z.leb_le in E; lia|].
  simpl. rewrite length_alter.
  destruct w as [e ts g l c r n cr]; simpl in *. subst cr. reflexivity.
Qed.

(** C2 (maintenance after shutdown), on the code: after the handshake of
    [Close] has completed, the loop of [listenerGC] is still in its
    select; a later [SetGCInterval] is received, a new ticker is started,
    and when it fires [RunValueLogGC] is called once more. *)
Theorem C2_tick_after_acknowledgement (d0 : DB) :
  ∃ w, run standin.tickAfterClose (new d0) = Some w
       ∧ listenerState w = LDone
       ∧ gcState w = GCSelect
       ∧ db (eng w) = None
       ∧ gcRuns w = 1%nat
       ∧ tick_after_ack standin.tickAfterClose.
Proof.
  eexists. split; [vm_compute; reflexivity|].
  do 4 (split; [reflexivity|]).
  exists [GoListenerGC; CloseSend; ListenerClose],
         [CallSetGCInterval 1; Advance 1; GCTick].
  split; [reflexivity|]. rewrite !elem_of_cons. auto.
Qed.

(** C6 ([Close]), on the code: [Close] does not always return one of
    its two results.  Called before [listenerGC] has created its ticker,
    [Close] sends its request, [listenerClose] closes the database and
    stops a nil ticker: the process panics while [Close] waits, and
    [Close] never returns.  And when the timeout fires while the database
    is still closing and the close fails, [listenerClose] assigns the
    error of the close to [e.err] after the timeout branch has assigned
    the timeout error and before it returns [e.err]: [Close] returns the
    error of the close from its timeout branch. *)
Theorem C6_Close_diverges (d0 : DB) (data : gmap string string)
        (script : list (option error)) (msg : string) :
  (∃ w, run standin.closeBeforeTicker (new d0) = Some w
        ∧ requests w = 1%nat
        ∧ closeState w = CWaiting 0
        ∧ crashed w = true
        ∧ ∀ evs w', run evs w = Some w' → closeState w' = CWaiting 0)
  ∧ ∃ w, run standin.timeoutRace
             (new (mkDB data script (Some (ErrStorage msg)))) = Some w
         ∧ crashed w = false
         ∧ closeState w = CReturned ByTimeout (Some (ErrStorage msg))
         ∧ Some (ErrStorage msg) ≠ Some ErrCloseTimeout.
Proof.
  split.
  - eexists. split; [vm_compute; reflexivity|].
    do 3 (split; [reflexivity|]).
    intros [|ev evs] w' Hrun.
    + injection Hrun as <-. reflexivity.
    + discriminate Hrun.
  - eexists. split; [vm_compute; reflexivity|].
    do 2 (split; [reflexivity|]). discriminate.
Qed.

(** C8 ([SetGCInterval]).  In every running state of the engine: a
    non-positive duration sends nothing and leaves the state, and so the
    interval, as it was, and the call has no result to report; a positive
    one replaces the interval, stops the current ticker and starts a new
    one with the new interval and its countdown at zero, without any call
    of [RunValueLogGC]: no tick is ready before the new interval has
    passed, and one is when it has. *)
Theorem C8_SetGCInterval (d0 : DB) (evs : list Event) (w : World) (d : Z) :
  run evs (new d0) = Some w → crashed w = false →
  (d ≤ 0 → SetGCInterval d = None ∧ step (CallSetGCInterval d) w = Some w)
  ∧ (0 < d → gcState w = GCSelect →
       ∃ i t w',
         gcTicker (eng w) = Some i ∧ timers w !! i = Some t
         ∧ step (CallSetGCInterval d) w = Some w'
         ∧ gcInterval (eng w') = d
         ∧ timers w' !! i = Some (Ticker_Stop t)
         ∧ gcTicker (eng w') = Some (length (timers w))
         ∧ timers w' !! length (timers w) = Some (mkTicker d true 0 false)
         ∧ gcRuns w' = gcRuns w
         ∧ crashed w' = false
         ∧ (∀ dt, 0 ≤ dt < d → step GCTick (advance dt w') = None)
         ∧ gcTickReady (advance d w') = true).
Proof.
  intros Hrun Hc. split.
  - intros Hd. unfold step, SetGCInterval. rewrite Hc.
    destruct (0 >=? d) eqn:E; [auto|].
    rewrite Z.geb_leb in E. apply Z.leb_gt in E. lia.
  - intros Hd Hg.
    destruct (ticker_inv_run evs _ _ (ticker_inv_new d0) Hrun Hc Hg) as (i & Hi & Hlt).
    destruct (lookup_lt_is_Some_2 _ _ Hlt) as [t Ht].
    exists i, t. eexists. split; [exact Hi|]. split; [exact Ht|].
    split.
    { unfold step, SetGCInterval. rewrite Hc, Hg.
      destruct (0 >=? d) eqn:E.
      - rewrite Z.geb_leb in E. apply Z.leb_le in E. lia.
      - rewrite (updateGcInterval_eq d w i Hd Hc Hi). reflexivity. }
    simpl.
    assert (Hlen : length (alter Ticker_Stop i (timers w)) = length (timers w))
      by apply length_alter.
    assert (Hnew : ∀ dt,
               (Ticker_advance dt <$> alter Ticker_Stop i (timers w)
                                      ++ [mkTicker d true 0 false])
                 !! length (timers w)
               = Some (Ticker_advance dt (mkTicker d true 0 false))).
    { intros dt. rewrite list_lookup_fmap, lookup_app_r by lia.
      rewrite Hlen, Nat.sub_diag. reflexivity. }
    repeat split.
    + rewrite lookup_app_l by lia. rewrite list_lookup_alter_eq, Ht. reflexivity.
    + rewrite lookup_app_r by lia. rewrite Hlen, Nat.sub_diag. reflexivity.
    + intros dt [Hdt0 Hdt]. unfold step. simpl. rewrite Hg.
      unfold gcTickReady. simpl. rewrite Hnew. simpl.
      destruct (d <=? 0 + dt) eqn:E; [apply Z.leb_le in E; lia | reflexivity].
    + unfold gcTickReady. simpl. rewrite Hnew. simpl.
      destruct (d <=? 0 + d) eqn:E; [reflexivity | apply Z.leb_gt in E; lia].
Qed.
End LifecycleClaims.

(** ** The noise filter of LearnFromText *)

Section NoiseFilterClaims.
Import participle.
Context `{CharClass} `{Codec} `{Tokenizer}.

Lemma MatchString_exists (rs : list Z) :
  MatchString rs = true ↔ ∃ r, r ∈ rs ∧ inPSZ r = true.
Proof.
  induction rs as [|r rs IH].
  - split; [discriminate | intros (r & Hr & _); inversion Hr].
  - cbn [MatchString class_run]. rewrite orb_true_iff, IH. split.
    + intros [Hr|(r' & Hin & Hr')].
      * exists r. split; [left|]. destruct (inPSZ r); [reflexivity | discriminate].
      * exists r'. split; [now right | exact Hr'].
    + intros (r' & Hin & Hr'). apply elem_of_cons in Hin as [->|Hin].
      * left. now rewrite Hr'.
      * right. eauto.
Qed.

(** [IsSpecialChar] holds as soon as one rune of the string is in the class. *)
Lemma IsSpecialChar_exists (s : string) :
  IsSpecialChar s = true ↔
  s ≠ EmptyString ∧ ∃ r, r ∈ runes s ∧ inPSZ r = true.
Proof.
  unfold IsSpecialChar. destruct (String.eqb_spec s EmptyString) as [->|Hne].
  - split; [discriminate | intros [Hne _]; congruence].
  - rewrite MatchString_exists. tauto.
Qed.

(** C3 (single-codepoint tokens), on the code: the filter compares the
    length in bytes with 1.  The token made of the one character U+6211,
    three bytes long, passes it; when the tree does not have it,
    [LearnFromText] adds it to the tree and to the store. *)
Theorem C3_single_codepoint_token_added
        (d : Engine) (text : string) (store : badger.DB) (data : string) :
  inPSZ 0x6211 = false →
  Cut (segmenter d) text true = [standin.wo] →
  containsWord standin.wo d = false →
  badger.db (dbEngine d) = Some store →
  badger.update_results store = [] →
  Marshal (mkDictEntry standin.wo 1000%float "nz") = inl data →
  length (SplitString standin.wo) = 1%nat
  ∧ ∃ d' store',
      LearnFromText text d = Some (d', None)
      ∧ containsWord standin.wo d' = true
      ∧ badger.db (dbEngine d') = Some store'
      ∧ badger.data store' !! standin.wo = Some data.
Proof.
  intros Hclass Hcut Hnew Hdb Hscript Hm.
  split; [reflexivity|].
  assert (Hspecial : IsSpecialChar standin.wo = false).
  { apply not_true_is_false. intros Ht.
    apply IsSpecialChar_exists in Ht as (_ & r & Hr & Hin).
    change (runes standin.wo) with [0x6211] in Hr.
    apply list_elem_of_singleton in Hr as ->. congruence. }
  unfold LearnFromText. rewrite Hcut.
  cbn [LearnFromText_loop]. rewrite Hspecial, Hnew.
  change (String.length standin.wo <=? 1)%nat with false. cbn [orb negb].
  unfold AddWord, insertIntoTrieAndDB, badger.Set_, badger.DB_Update_Set.
  rewrite Hm, Hdb, Hscript.
  eexists _, _. split; [reflexivity|]. split; [|split; [reflexivity|]].
  - unfold containsWord. cbn [root]. apply containsWord_loop_trieInsert_same.
  - cbn [badger.data]. apply lookup_insert_eq.
Qed.

(** C4 (noise is any token with a special character), on the code:
    [regexp.MatchString] looks for a match anywhere in the token, so the
    token ["a-b"], which has two letters around its hyphen, is taken for a
    special symbol, and [LearnFromText] skips it and learns nothing. *)
Theorem C4_mixed_token_filtered (d : Engine) (text : string) :
  inPSZ 0x2D = true → inPSZ 0x61 = false → inPSZ 0x62 = false →
  Cut (segmenter d) text true = ["a-b"] →
  IsSpecialChar "a-b" = true
  ∧ LearnFromText text d = Some (d, None).
Proof.
  intros Hhyphen _ _ Hcut.
  assert (Hspecial : IsSpecialChar "a-b" = true).
  { apply IsSpecialChar_exists. split; [discriminate|].
    exists 0x2D. split; [|exact Hhyphen].
    change (runes "a-b") with [0x61; 0x2D; 0x62].
    rewrite !elem_of_cons. auto. }
  split; [exact Hspecial|].
  unfold LearnFromText. rewrite Hcut.
  cbn [LearnFromText_loop]. rewrite Hspecial, orb_true_r. reflexivity.
Qed.
End NoiseFilterClaims.

(** ** The claims on concrete inputs *)

Section Examples.
Import participle standin.
Local Existing Instances asciiClass learnedCodec spaceTokenizer.

Lemma built_abEngine : built ["ab"] (root (abEngine [])).
Proof.
  exact (built_insert [] NewTrieNode "ab" (mkDictEntry "ab" 1000%float "nz") built_new).
Qed.

Lemma C1_witness :
  containsWord "ab" (mkEngine (dbEngine (abEngine [])) (segmenter (abEngine [])) abRoot) = true
  ∧ ∃ n, walk (SplitString "ab") abRoot = Some n
         ∧ IsEnd n = true
         ∧ Entry n = Some (mkDictEntry "ab" 1000%float "nz").
Proof.
  apply (C1_AddWord_Bootstrap_roundtrip
           (emptyEngine []) (abEngine []) "ab" 1000%float "nz" abStore abRoot).
  - discriminate.
  - intros data [= <-]. reflexivity.
  - vm_compute. reflexivity.
  - vm_compute. reflexivity.
  - vm_compute. reflexivity.
Defined.

Lemma C3_witness :
  length (SplitString wo) = 1%nat
  ∧ ∃ d' store',
      LearnFromText wo (emptyEngine []) = Some (d', None)
      ∧ containsWord wo d' = true
      ∧ badger.db (dbEngine d') = Some store'
      ∧ badger.data store' !! wo = Some wo.
Proof.
  apply (C3_single_codepoint_token_added (emptyEngine []) wo (openDB []) wo);
    vm_compute; reflexivity.
Defined.

Lemma C4_witness :
  IsSpecialChar "a-b" = true
  ∧ LearnFromText "a-b" (emptyEngine []) = Some (emptyEngine [], None).
Proof.
  apply (C4_mixed_token_filtered (emptyEngine []) "a-b"); vm_compute; reflexivity.
Defined.


Lemma C7_witness :
  ∃ d' store',
    AddWord "ab" 1000%float "nz" (emptyEngine [Some diskFull])
      = Some (d', Some (ErrWrap "save content to db fail" diskFull))
    ∧ containsWord "ab" d' = true
    ∧ (∃ n, walk (SplitString "ab") (root d') = Some n
            ∧ IsEnd n = true
            ∧ Entry n = Some (mkDictEntry "ab" 1000%float "nz"))
    ∧ badger.db (dbEngine d') = Some store'
    ∧ badger.data store' = badger.data (openDB [Some diskFull]).
Proof.
  apply (C7_failed_write_no_rollback
           (emptyEngine [Some diskFull]) "ab" 1000%float "nz"
           (openDB [Some diskFull]) "ab" diskFull []); reflexivity.
Defined.

(** C7 as stated fails: the word is added once, the write committing;
    it is added again with the same frequency and tag, the write failing.
    The call returns the error and the store holds the entry all the same:
    the first call put it there. *)
Lemma C7_counterexample :
  AddWord "ab" 1000%float "nz" (emptyEngine [None; Some diskFull])
    = Some (abEngine [None; Some diskFull], None)
  ∧ ∃ d',
      AddWord "ab" 1000%float "nz" (abEngine [None; Some diskFull])
        = Some (d', Some (ErrWrap "save content to db fail" diskFull))
      ∧ containsWord "ab" d' = true
      ∧ storeHolds (mkDictEntry "ab" 1000%float "nz") (dbEngine d').
Proof.
  split; [vm_compute; reflexivity|].
  eexists. split; [vm_compute; reflexivity|].
  split; [vm_compute; reflexivity|].
  unfold storeHolds. eexists _, "ab".
  split; [vm_compute; reflexivity|].
  split; vm_compute; reflexivity.
Qed.

Lemma C9_witness :
  ∃ n, walk (SplitString "ab") (root (abEngine [])) = Some n
       ∧ (IsEnd n = true ↔ Entry n ≠ None).
Proof.
  eexists. split; [vm_compute; reflexivity|].
  apply (C9_IsEnd_iff_Entry ["ab"] (root (abEngine [])) built_abEngine
                            (SplitString "ab")).
  vm_compute. reflexivity.
Defined.

Lemma C10_witness :
  (IsEnd (root (abEngine [])) = false ∧ containsWord EmptyString (abEngine []) = false)
  ∧ ∃ d' r,
      insertIntoTrieAndDB EmptyString (mkDictEntry EmptyString 1000%float "nz") (abEngine [])
        = Some (d', r)
      ∧ IsEnd (root d') = true ∧ containsWord EmptyString d' = true.
Proof.
  split.
  - apply (proj1 (C10_root_and_empty_content (abEngine [])) ["ab"]).
    + exact built_abEngine.
    + repeat constructor. discriminate.
  - eexists _, _. split; [vm_compute; reflexivity|].
    apply (proj2 (C10_root_and_empty_content (abEngine []))
                 (mkDictEntry EmptyString 1000%float "nz") _ None).
    vm_compute. reflexivity.
Defined.

Lemma C8_witness :
  ∃ w, badger.run [badger.GoListenerGC] (badger.new (openDB [])) = Some w
       ∧ (badger.SetGCInterval 0 = None
          ∧ badger.step (badger.CallSetGCInterval 0) w = Some w)
       ∧ ∃ w', badger.step (badger.CallSetGCInterval 7) w = Some w'
               ∧ badger.gcInterval (badger.eng w') = 7
               ∧ badger.gcRuns w' = badger.gcRuns w
               ∧ badger.step badger.GCTick (badger.advance 6 w') = None
               ∧ badger.gcTickReady (badger.advance 7 w') = true.
Proof.
  eexists. split; [vm_compute; reflexivity|].
  match goal with
  | |- (_ ∧ badger.step _ ?w = _) ∧ _ =>
      destruct (C8_SetGCInterval (openDB []) [badger.GoListenerGC] w 0)
        as (Hzero & _); [vm_compute; reflexivity | reflexivity |];
      destruct (C8_SetGCInterval (openDB []) [badger.GoListenerGC] w 7)
        as (_ & Hpos); [vm_compute; reflexivity | reflexivity |]
  end.
  split; [apply Hzero; lia|].
  destruct Hpos as (i & t & w' & _ & _ & Hstep & Hint & _ & _ & _ & Hruns & _ & Hearly & Hdue);
    [lia | reflexivity |].
  exists w'. repeat split; try assumption.
  apply Hearly. lia.
Defined.
End Examples.

(** ** store_func.go *)

Section KeyOrderFacts.

Lemma ascii_compare_refl (c : ascii) : Ascii.compare c c = Eq.
Proof. unfold Ascii.compare. apply N.compare_refl. Qed.

Lemma ascii_compare_trans_Lt (a b c : ascii) :
  Ascii.compare a b = Lt → Ascii.compare b c = Lt → Ascii.compare a c = Lt.
Proof.
  unfold Ascii.compare. rewrite !N.compare_lt_iff. apply N.lt_trans.
Qed.

Lemma string_compare_refl (s : string) : String.compare s s = Eq.
Proof.
  induction s as [|c s IH]; simpl; [reflexivity|].
  now rewrite ascii_compare_refl.
Qed.

Lemma string_compare_trans_Lt (s1 s2 s3 : string) :
  String.compare s1 s2 = Lt → String.compare s2 s3 = Lt →
  String.compare s1 s3 = Lt.
Proof.
  revert s2 s3; induction s1 as [|c1 s1 IH]; intros [|c2 s2] [|c3 s3];
    simpl; try discriminate; auto.
  destruct (Ascii.compare c1 c2) eqn:E12; try discriminate;
    destruct (Ascii.compare c2 c3) eqn:E23; try discriminate.
  - apply Ascii.compare_eq_iff in E12, E23. subst.
    rewrite ascii_compare_refl. apply IH.
  - apply Ascii.compare_eq_iff in E12. subst. now rewrite E23.
  - apply Ascii.compare_eq_iff in E23. subst. now rewrite E12.
  - now rewrite (ascii_compare_trans_Lt _ _ _ E12 E23).
Qed.

Lemma string_leb_trans (s1 s2 s3 : string) :
  String.leb s1 s2 = true → String.leb s2 s3 = true → String.leb s1 s3 = true.
Proof.
  unfold String.leb.
  destruct (String.compare s1 s2) eqn:E12; try discriminate;
    destruct (String.compare s2 s3) eqn:E23; try discriminate; intros _ _.
  - apply String.compare_eq_iff in E12, E23. subst. now rewrite string_compare_refl.
  - apply String.compare_eq_iff in E12. subst. now rewrite E23.
  - apply String.compare_eq_iff in E23. subst. now rewrite E12.
  - now rewrite (string_compare_trans_Lt _ _ _ E12 E23).
Qed.

Lemma string_ltb_not_leb (k p : string) :
  String.ltb k p = true → String.leb p k = false.
Proof.
  unfold String.ltb, String.leb. rewrite (String.compare_antisym p k).
  destruct (String.compare k p); simpl; congruence.
Qed.

Lemma string_not_ltb_leb (k p : string) :
  String.ltb k p = false → String.leb p k = true.
Proof.
  unfold String.ltb, String.leb. rewrite (String.compare_antisym p k).
  destruct (String.compare k p); simpl; congruence.
Qed.

(** A string is not below its prefixes. *)
Lemma prefix_leb (p k : string) :
  String.prefix p k = true → String.leb p k = true.
Proof.
  unfold String.leb.
  revert k; induction p as [|c p IH]; intros [|c' k]; simpl; try discriminate; auto.
  destruct (Ascii.ascii_dec c c') as [->|Hne]; [|discriminate].
  rewrite ascii_compare_refl. apply IH.
Qed.

(** Between a string and one of its extensions there are only extensions
    of it: the keys with a given prefix are next to each other. *)
Lemma prefix_between (p k1 k2 : string) :
  String.leb p k1 = true → String.leb k1 k2 = true →
  String.prefix p k2 = true → String.prefix p k1 = true.
Proof.
  unfold String.leb.
  revert k1 k2; induction p as [|c p IH]; intros [|c1 k1] [|c2 k2];
    simpl; try discriminate; auto.
  destruct (Ascii.ascii_dec c c2) as [->|Hne]; [|discriminate].
  destruct (Ascii.compare c2 c1) eqn:E1; try discriminate.
  - apply Ascii.compare_eq_iff in E1. subst c1. rewrite ascii_compare_refl.
    destruct (Ascii.ascii_dec c2 c2); [|congruence]. apply IH.
  - rewrite (Ascii.compare_antisym c1 c2), E1. simpl. discriminate.
Qed.

#[local] Instance key_le_trans : Transitive badger.key_le.
Proof. intros a b c. unfold badger.key_le. apply string_leb_trans. Qed.

#[local] Instance key_le_total : Total badger.key_le.
Proof. intros a b. unfold badger.key_le. apply String.leb_total. Qed.

Lemma DB_items_sorted (d : badger.DB) :
  StronglySorted badger.key_le (badger.DB_items d).
Proof. unfold badger.DB_items. apply StronglySorted_merge_sort; apply _. Qed.

End KeyOrderFacts.

Section StoreFuncFacts.
Import badger store_func.

Lemma seek_spec (p : string) (items : list (string * string)) :
  StronglySorted key_le items →
  StronglySorted key_le (seek p items)
  ∧ Forall (λ kv, String.leb p kv.1 = true) (seek p items)
  ∧ filter (λ k, String.prefix p k = true) (seek p items).*1
    = filter (λ k, String.prefix p k = true) items.*1.
Proof.
  induction 1 as [|[k v] rest Hsorted IH Hall]; simpl.
  - repeat split; constructor.
  - destruct (String.ltb k p) eqn:E.
    + destruct IH as (IH1 & IH2 & IH3). repeat split; try assumption.
      rewrite IH3, filter_cons_False; [reflexivity|].
      simpl. intros Hpre. apply prefix_leb in Hpre.
      rewrite (string_ltb_not_leb _ _ E) in Hpre. discriminate.
    + apply string_not_ltb_leb in E. repeat split.
      * now constructor.
      * constructor; [exact E|].
        eapply Forall_impl; [exact Hall|]. intros [k' v'] Hle. simpl.
        eapply string_leb_trans; [exact E | exact Hle].
Qed.

Lemma filter_none {A : Type} (P : A → Prop) `{∀ x, Decision (P x)} (l : list A) :
  Forall (λ x, ¬ P x) l → filter P l = [].
Proof.
  induction 1 as [|x l Hx _ IH]; [reflexivity|].
  now rewrite filter_cons_False.
Qed.

Lemma scanPrefix_filter (p : string) (items : list (string * string)) :
  StronglySorted key_le items →
  Forall (λ kv, String.leb p kv.1 = true) items →
  scanPrefix p items = filter (λ k, String.prefix p k = true) items.*1.
Proof.
  induction 1 as [|[k v] rest Hsorted IH Hall]; intros Hge; simpl; [reflexivity|].
  apply Forall_cons in Hge as [Hk Hge]. simpl in Hk.
  destruct (String.prefix p k) eqn:E.
  - rewrite filter_cons_True by exact E. f_equal. now apply IH.
  - rewrite filter_cons_False by (simpl; congruence).
    symmetry. apply filter_none. apply Forall_fmap.
    eapply Forall_impl; [exact Hall|]. intros [k' v'] Hle Hpre. simpl in *.
    rewrite (prefix_between p k k' Hk Hle Hpre) in E. discriminate.
Qed.

(** The keys of the store, as a scan meets them. *)
Lemma elem_of_DB_keys (d : DB) (k : string) :
  k ∈ (DB_items d).*1 ↔ is_Some (data d !! k).
Proof.
  rewrite list_elem_of_fmap. split.
  - intros ([k' v] & -> & Hin). apply elem_of_DB_items in Hin. eauto.
  - intros [v Hv]. exists (k, v). split; [reflexivity|].
    now apply elem_of_DB_items.
Qed.

(** [GetKey] with a prefix returns the keys of the store that start with
    the prefix, each once, in key order, and no other; with the nil prefix
    it returns every key, and so it does with the empty one. *)
Theorem GetKey_prefix_scan (e : Engine) (d : DB) (p : string) :
  db e = Some d →
  GetKey (Some p) e
    = Some (filter (λ k, String.prefix p k = true) (DB_items d).*1, None)
  ∧ GetKey None e = Some ((DB_items d).*1, None)
  ∧ GetKey (Some EmptyString) e = GetKey None e
  ∧ NoDup (DB_items d).*1
  ∧ (∀ k keys, GetKey (Some p) e = Some (keys, None) →
       (k ∈ keys ↔ is_Some (data d !! k) ∧ String.prefix p k = true)).
Proof.
  intros Hdb.
  assert (Hscan : ∀ q, GetKey (Some q) e
            = Some (filter (λ k, String.prefix q k = true) (DB_items d).*1, None)).
  { intros q. unfold GetKey. rewrite Hdb. do 2 f_equal.
    destruct (seek_spec q _ (DB_items_sorted d)) as (Hs & Hge & Hf).
    rewrite scanPrefix_filter by assumption. exact Hf. }
  split; [apply Hscan|]. split; [unfold GetKey; now rewrite Hdb|].
  split; [|split].
  - rewrite Hscan. unfold GetKey. rewrite Hdb. do 2 f_equal.
    clear Hscan. induction (DB_items d).*1 as [|k l IH]; [reflexivity|].
    rewrite filter_cons_True by (destruct k; reflexivity). now rewrite IH.
  - apply DB_items_NoDup.
  - intros k keys Hkeys. rewrite Hscan in Hkeys. injection Hkeys as <-.
    rewrite list_elem_of_filter, elem_of_DB_keys. tauto.
Qed.

(** A committed [Set] is what [Get] and [Exists] see under the key, when
    the key is not empty (a read refuses the empty key); the other keys
    are untouched; a failed [Set] changes no answer. *)
Theorem Set_then_Get (key value : string) (e e' : Engine) (r : option error) :
  Set_ key value e = Some (e', r) →
  match r with
  | None =>
      (key ≠ EmptyString →
         Get key e' = Some (value, None) ∧ Exists key e' = Some (true, None))
      ∧ ∀ k, k ≠ key → Get k e' = Get k e ∧ Exists k e' = Exists k e
  | Some _ =>
      ∀ k, Get k e' = Get k e ∧ Exists k e' = Exists k e
             ∧ ∀ p, GetKey p e' = GetKey p e
  end.
Proof.
  unfold Set_. destruct (db e) as [d|] eqn:Hdb; [|discriminate].
  destruct (DB_Update_Set key value d) as [d' r'] eqn:Hup.
  intros [= <- <-]. pose proof (DB_Update_Set_data _ _ _ _ _ Hup) as Hdata.
  unfold Get, Exists, GetKey, tx_Get, DB_items. simpl. rewrite Hdb.
  destruct r' as [err|]; rewrite Hdata.
  - intros k. repeat split; reflexivity.
  - split.
    + intros Hne. apply String.eqb_neq in Hne. rewrite Hne, lookup_insert_eq.
      split; reflexivity.
    + intros k Hk. rewrite lookup_insert_ne by congruence. split; reflexivity.
Qed.

(** [Get] and [Exists] on one key.  The empty key: both return
    [ErrEmptyKey].  A missing key: [Get] returns [ErrKeyNotFound] and no
    value, [Exists] returns false and no error.  In general [Exists]
    answers true exactly when [Get] returns a value without error, and it
    returns an error for the empty key only. *)
Theorem Exists_agrees_with_Get (key : string) (e : Engine) (d : DB) :
  db e = Some d →
  (key = EmptyString →
     Get key e = Some (EmptyString, Some ErrEmptyKey)
     ∧ Exists key e = Some (false, Some ErrEmptyKey))
  ∧ (key ≠ EmptyString → data d !! key = None →
     Get key e = Some (EmptyString, Some ErrKeyNotFound)
     ∧ Exists key e = Some (false, None))
  ∧ ∃ b r, Exists key e = Some (b, r)
           ∧ (b = true ↔ ∃ v, Get key e = Some (v, None))
           ∧ (r = None ↔ key ≠ EmptyString).
Proof.
  intros Hdb. unfold Get, Exists, tx_Get. rewrite Hdb.
  destruct (String.eqb_spec key EmptyString) as [->|Hne].
  - split; [intros _; split; reflexivity|]. split; [congruence|].
    exists false, (Some ErrEmptyKey). split; [reflexivity|]. split.
    + split; [discriminate | intros [v Hv]; discriminate].
    + split; [discriminate | congruence].
  - split; [congruence|]. split.
    + intros _ ->. split; [reflexivity|]. now rewrite decide_True.
    + destruct (data d !! key) as [v|].
      * exists true, None. split; [reflexivity|]. split; [split; eauto|].
        split; auto.
      * exists false, None. rewrite decide_True by reflexivity.
        split; [reflexivity|]. split; [|split; auto].
        split; [discriminate | intros [v Hv]; discriminate].
Qed.

(** A committed [Del] removes the key, whether it was there or not, and
    only that key; a failed [Del] changes no answer, and [Del] of the
    empty key fails. *)
Theorem Del_then_Exists (key : string) (e e' : Engine) (r : option error) :
  Del key e = Some (e', r) →
  (key = EmptyString → r = Some ErrEmptyKey)
  ∧ match r with
    | None =>
        Exists key e' = Some (false, None)
        ∧ Get key e' = Some (EmptyString, Some ErrKeyNotFound)
        ∧ ∀ k, k ≠ key → Get k e' = Get k e ∧ Exists k e' = Exists k e
    | Some _ => ∀ k, Get k e' = Get k e ∧ Exists k e' = Exists k e
    end.
Proof.
  unfold Del. destruct (db e) as [d|] eqn:Hdb; [|discriminate].
  unfold DB_Update_Delete.
  destruct (String.eqb_spec key EmptyString) as [->|Hne].
  - intros [= <- <-]. split; [reflexivity|].
    intros k. unfold Get, Exists. simpl. rewrite Hdb. split; reflexivity.
  - intros Hdel. split; [congruence|]. apply String.eqb_neq in Hne.
    revert Hdel. unfold Get, Exists, tx_Get.
    destruct (update_results d) as [|[err|] rest]; intros [= <- <-]; simpl;
      rewrite Hdb, ?Hne, ?lookup_delete_eq, ?decide_True by reflexivity;
      repeat split; try reflexivity;
      now rewrite lookup_delete_ne by congruence.
Qed.
End StoreFuncFacts.

(** ** More on the trie and the dictionary engine *)

Section TrieAlgebra.
Import participle.

(** Inserting twice on the same path keeps the second entry only. *)
Lemma trieInsert_overwrite (p : list string) (e1 e2 : DictEntry) (t : TrieNode) :
  trieInsert p e2 (trieInsert p e1 t) = trieInsert p e2 t.
Proof.
  revert t; induction p as [|c p IH]; intros t; simpl; [reflexivity|].
  rewrite lookup_insert_eq, insert_insert_eq, IH. reflexivity.
Qed.

(** Insertions on different paths can be exchanged. *)
Lemma trieInsert_comm (p q : list string) (e e' : DictEntry) (t : TrieNode) :
  p ≠ q →
  trieInsert p e (trieInsert q e' t) = trieInsert q e' (trieInsert p e t).
Proof.
  revert q t; induction p as [|c p IH]; intros [|c' q] t Hne; simpl;
    try congruence; try reflexivity.
  destruct (decide (c = c')) as [->|Hc].
  - rewrite !lookup_insert_eq, !insert_insert_eq.
    rewrite IH by congruence. reflexivity.
  - rewrite (lookup_insert_ne _ c' c) by congruence.
    rewrite (lookup_insert_ne _ c c') by congruence.
    rewrite insert_insert_ne by congruence. reflexivity.
Qed.
End TrieAlgebra.

Section EngineMore.
Import participle consistency.
Context `{CharClass} `{Codec} `{Tokenizer}.

(** What [AddWord] does on an open database to the tree, the store and
    the segmenter; it always returns. *)
Lemma AddWord_effect (content : string) (frequency : float) (pos : string)
      (d : Engine) (s : badger.DB) :
  badger.db (dbEngine d) = Some s →
  ∃ d' r s',
    AddWord content frequency pos d = Some (d', r)
    ∧ root d' = trieInsert (SplitString content)
                           (mkDictEntry content frequency pos) (root d)
    ∧ badger.db (dbEngine d') = Some s'
    ∧ match r with
      | None =>
          (∃ data, Marshal (mkDictEntry content frequency pos) = inl data
                   ∧ badger.data s' = <[content := data]> (badger.data s))
          ∧ segmenter d' = AddToken (segmenter d) content frequency pos
      | Some err =>
          badger.data s' = badger.data s
          ∧ segmenter d' = segmenter d
          ∧ ∃ e, err = ErrWrap "save content to db fail" e
      end.
Proof.
  intros Hdb. unfold AddWord, insertIntoTrieAndDB, badger.Set_.
  destruct (Marshal _) as [data|e] eqn:Hm.
  - rewrite Hdb.
    destruct (badger.DB_Update_Set content data s) as [s' r] eqn:Hup.
    pose proof (DB_Update_Set_data _ _ _ _ _ Hup) as Hdata.
    destruct r as [e|]; eexists _, _, s'; (split; [reflexivity|]); simpl;
      repeat split; eauto.
  - eexists _, _, s. split; [reflexivity|]. simpl. repeat split; eauto.
Qed.

(** Adding a word a second time overwrites: whatever the two writes did,
    the tree is the one the second call alone would have made, and the
    terminal node holds the second entry. *)
Theorem AddWord_twice_overwrites
        (content : string) (f1 f2 : float) (p1 p2 : string)
        (d d1 d2 : Engine) (r1 r2 : option error) :
  AddWord content f1 p1 d = Some (d1, r1) →
  AddWord content f2 p2 d1 = Some (d2, r2) →
  root d2 = trieInsert (SplitString content) (mkDictEntry content f2 p2) (root d)
  ∧ ∃ n, walk (SplitString content) (root d2) = Some n
         ∧ IsEnd n = true ∧ Entry n = Some (mkDictEntry content f2 p2).
Proof.
  intros H1' H2'.
  assert (Hopen : ∀ c f p (x y : Engine) r,
             AddWord c f p x = Some (y, r) →
             root y = trieInsert (SplitString c) (mkDictEntry c f p) (root x)).
  { intros c f p x y r. unfold AddWord.
    destruct (insertIntoTrieAndDB c _ x) as [[x1 [e|]]|] eqn:Hins;
      try discriminate; intros [= <- <-]; simpl;
      now apply insertIntoTrieAndDB_root in Hins. }
  apply Hopen in H1', H2'. rewrite H2', H1', trieInsert_overwrite.
  split; [reflexivity|]. apply walk_trieInsert_same.
Qed.

Lemma insertAll_app (ops1 ops2 : list (string * DictEntry)) (t : TrieNode) :
  insertAll (ops1 ++ ops2) t = insertAll ops2 (insertAll ops1 t).
Proof. unfold insertAll. apply fold_left_app. Qed.

Lemma insertAll_Permutation (ops ops' : list (string * DictEntry)) (t : TrieNode) :
  ops ≡ₚ ops' → NoDup ops.*1 → insertAll ops t = insertAll ops' t.
Proof.
  intros Hperm. revert t.
  induction Hperm as [|x l l' _ IH|x y l|l l' l'' Hp1 IH1 Hp2 IH2]; intros t Hnd.
  - reflexivity.
  - simpl. apply IH. rewrite fmap_cons in Hnd. now apply NoDup_cons in Hnd.
  - simpl. f_equal. apply trieInsert_comm.
    rewrite !fmap_cons in Hnd. apply NoDup_cons in Hnd as [Hy _].
    intros Heq. apply SplitString_inj in Heq. apply Hy. rewrite Heq. left.
  - rewrite IH1 by exact Hnd. apply IH2. now rewrite <- Hp1.
Qed.

(** The items of a scan that completed are all decoded. *)
Lemma loadItems_ok_decoded (items : list (string * string)) (t : TrieNode) :
  snd (loadItems items t) = None ↔
  Forall2 (λ kv ke, ke.1 = kv.1 ∧ Unmarshal kv.2 = inl ke.2) items (decodedItems items).
Proof.
  revert t; induction items as [|[k v] rest IH]; intros t; simpl.
  - split; [constructor | reflexivity].
  - destruct (Unmarshal v) as [e|e] eqn:Hv.
    + rewrite IH. split.
      * intros Hall. constructor; [split; [reflexivity | exact Hv] | exact Hall].
      * intros Hall. now inversion Hall.
    + split; [discriminate | intros Hall; inversion Hall].
Qed.

Lemma decodedItems_all (items : list (string * string)) (ops : list (string * DictEntry)) :
  Forall2 (λ kv ke, ke.1 = kv.1 ∧ Unmarshal kv.2 = inl ke.2) items ops →
  decodedItems items = ops.
Proof.
  induction 1 as [|[k v] [k' e] items ops [Hk Hv] _ IH]; simpl in *; [reflexivity|].
  subst k'. now rewrite Hv, IH.
Qed.

(** The tree a scan builds does not depend on the order in which the
    records come, as long as each key comes once and every value decodes. *)
Theorem loadItems_order_irrelevant
        (items items' : list (string * string)) (t : TrieNode) :
  items ≡ₚ items' → NoDup items.*1 →
  snd (loadItems items t) = None →
  loadItems items' t = loadItems items t.
Proof.
  intros Hperm Hnd Hok.
  apply loadItems_ok_decoded in Hok.
  set (dec := λ kv : string * string,
         (kv.1, match Unmarshal kv.2 with inl e => e | inr _ => mkDictEntry kv.1 0%float kv.1 end)).
  assert (Hdec : ∀ l, Forall (λ kv, ∃ e, Unmarshal kv.2 = inl e) l →
                      decodedItems l = dec <$> l
                      ∧ ∀ t0, snd (loadItems l t0) = None).
  { induction 1 as [|[k v] l [e He] _ [IH1 IH2]]; [split; reflexivity|].
    simpl in *. unfold dec at 1. simpl. rewrite He, IH1. split; [reflexivity|].
    intros t0. apply IH2. }
  assert (Hall : Forall (λ kv, ∃ e, Unmarshal kv.2 = inl e) items).
  { clear -Hok. induction Hok as [|kv ke l l' [_ Hv] _ IH]; constructor; eauto. }
  assert (Hall' : Forall (λ kv, ∃ e, Unmarshal kv.2 = inl e) items')
    by now rewrite <- Hperm.
  destruct (Hdec _ Hall) as [E1 O1]. destruct (Hdec _ Hall') as [E2 O2].
  rewrite (surjective_pairing (loadItems items' t)),
          (surjective_pairing (loadItems items t)).
  rewrite O1, O2, !loadItems_insertAll, E1, E2. f_equal.
  symmetry. apply insertAll_Permutation.
  - now apply fmap_Permutation.
  - rewrite <- list_fmap_compose.
    replace (fst ∘ dec) with (fst : string * string → string); [exact Hnd|reflexivity].
Qed.

(** A built tree answers true exactly on the contents inserted. *)
Theorem built_contains_exactly (cs : list string) (d : Engine) (c : string) :
  built cs (root d) → (containsWord c d = true ↔ c ∈ cs).
Proof.
  intros Hbuilt. apply built_insertAll in Hbuilt as (ops & Hroot & ->).
  unfold containsWord. rewrite Hroot, containsWord_loop_insertAll, elem_of_rev.
  rewrite containsWord_loop_NewTrieNode. intuition discriminate.
Qed.
End EngineMore.

Section BootstrapFacts.
Import participle consistency.
Context `{CharClass} `{Codec} `{Tokenizer}.

Lemma decoded_keys (items : list (string * string)) (ops : list (string * DictEntry)) :
  Forall2 (λ kv ke, ke.1 = kv.1 ∧ Unmarshal kv.2 = inl ke.2) items ops →
  ops.*1 = items.*1.
Proof.
  induction 1 as [|kv ke items ops [Hk _] _ IH]; [reflexivity|].
  rewrite !fmap_cons. now rewrite Hk, IH.
Qed.

Lemma loadItems_error (items : list (string * string)) (t t' : TrieNode) (e : error) :
  loadItems items t = (t', Some e) →
  ∃ k v, (k, v) ∈ items ∧ Unmarshal v = inr e.
Proof.
  revert t; induction items as [|[k v] rest IH]; intros t; simpl; [discriminate|].
  destruct (Unmarshal v) as [entry|e'] eqn:Hv.
  - intros Hload. destruct (IH _ Hload) as (k' & v' & Hin & Hv').
    exists k', v'. split; [now right | exact Hv'].
  - intros [= <- <-]. exists k, v. split; [left | exact Hv].
Qed.

Lemma loadItems_undecodable (items : list (string * string)) (t : TrieNode)
      (k v : string) (e : error) :
  (k, v) ∈ items → Unmarshal v = inr e → snd (loadItems items t) ≠ None.
Proof.
  revert t; induction items as [|[k0 v0] rest IH]; intros t Hin Hv; [inversion Hin|].
  simpl. destruct (Unmarshal v0) as [e0|e0] eqn:Hv0; [|discriminate].
  apply elem_of_cons in Hin as [[= -> ->]|Hin]; [congruence|].
  now apply IH.
Qed.

(** A bootstrap that completes yields a tree with exactly the keys of
    the store as its words, each terminal node holding the entry decoded
    from the value stored under the key. *)
Theorem Bootstrap_mirrors_store (d : Engine) (store : badger.DB) :
  badger.db (dbEngine d) = Some store →
  Bootstrap store = (root d, None) →
  synced d
  ∧ ∀ k v, badger.data store !! k = Some v →
      ∃ e n, Unmarshal v = inl e
             ∧ walk (SplitString k) (root d) = Some n
             ∧ IsEnd n = true ∧ Entry n = Some e.
Proof.
  intros Hdb Hboot. unfold Bootstrap, loadDictionaryFromDB in Hboot.
  assert (Hok : snd (loadItems (badger.DB_items store) NewTrieNode) = None)
    by now rewrite Hboot.
  apply loadItems_ok_decoded in Hok.
  pose proof (decoded_keys _ _ Hok) as Hkeys.
  split.
  - exists store. split; [exact Hdb|]. intros c.
    unfold containsWord.
    replace (root d) with (fst (loadItems (badger.DB_items store) NewTrieNode))
      by now rewrite Hboot.
    rewrite loadItems_insertAll, containsWord_loop_insertAll, Hkeys.
    rewrite containsWord_loop_NewTrieNode, elem_of_DB_keys.
    intuition discriminate.
  - intros k v Hkv. apply elem_of_DB_items in Hkv.
    assert (Hdec : ∃ e, Unmarshal v = inl e).
    { clear -Hok Hkv. induction Hok as [|kv ke l l' [_ Hv] _ IH]; [inversion Hkv|].
      apply elem_of_cons in Hkv as [Heq|Hin]; [subst kv; simpl in *|]; eauto. }
    destruct Hdec as [e He]. exists e.
    destruct (loadItems_finds _ _ _ _ _ _ Hboot (DB_items_NoDup store) Hkv He)
      as (n & Hn). eauto.
Qed.

(** A bootstrap fails exactly when some stored value does not decode,
    and its error is the decoding error of such a value. *)
Theorem Bootstrap_fails_on_undecodable (store : badger.DB) :
  (snd (Bootstrap store) ≠ None ↔
     ∃ k v e, badger.data store !! k = Some v ∧ Unmarshal v = inr e)
  ∧ ∀ t e, Bootstrap store = (t, Some e) →
      ∃ k v, badger.data store !! k = Some v ∧ Unmarshal v = inr e.
Proof.
  unfold Bootstrap, loadDictionaryFromDB.
  assert (Herr : ∀ t e, loadItems (badger.DB_items store) NewTrieNode = (t, Some e) →
                  ∃ k v, badger.data store !! k = Some v ∧ Unmarshal v = inr e).
  { intros t e Hload. apply loadItems_error in Hload as (k & v & Hin & Hv).
    apply elem_of_DB_items in Hin. eauto. }
  split; [|exact Herr]. split.
  - destruct (loadItems (badger.DB_items store) NewTrieNode) as [t [e|]] eqn:Hload;
      [|simpl; congruence].
    intros _. destruct (Herr _ _ eq_refl) as (k & v & Hkv & Hv). eauto.
  - intros (k & v & e & Hkv & Hv). apply elem_of_DB_items in Hkv.
    eapply loadItems_undecodable; eauto.
Qed.
End BootstrapFacts.

Section AddWordFacts.
Import participle consistency.
Context `{CharClass} `{Codec} `{Tokenizer}.

Lemma AddWord_root (c : string) (f : float) (p : string) (d d' : Engine)
      (r : option error) :
  AddWord c f p d = Some (d', r) →
  root d' = trieInsert (SplitString c) (mkDictEntry c f p) (root d).
Proof.
  unfold AddWord.
  destruct (insertIntoTrieAndDB c _ d) as [[x1 [e|]]|] eqn:Hins;
    try discriminate; intros [= <- <-]; simpl;
    now apply insertIntoTrieAndDB_root in Hins.
Qed.

Lemma contains_after_AddWord (c : string) (f : float) (p : string)
        (d d' : Engine) (r : option error) (w : string) :
  AddWord c f p d = Some (d', r) →
  (containsWord w d' = true ↔ w = c ∨ containsWord w d = true).
Proof.
  intros Hadd. apply AddWord_root in Hadd. unfold containsWord. rewrite Hadd.
  destruct (decide (w = c)) as [->|Hne].
  - rewrite containsWord_loop_trieInsert_same. tauto.
  - rewrite containsWord_loop_trieInsert_other; [tauto|].
    intros Heq. apply Hne. now apply SplitString_inj.
Qed.

Lemma synced_after_AddWord (c : string) (f : float) (p : string)
        (d d' : Engine) (r : option error) :
  synced d → AddWord c f p d = Some (d', r) →
  match r with
  | None => synced d' ∧ segmenter d' = AddToken (segmenter d) c f p
  | Some err =>
      ahead_by c d' ∧ segmenter d' = segmenter d
      ∧ ∃ e, err = ErrWrap "save content to db fail" e
  end.
Proof.
  intros (s & Hdb & Hsync) Hadd.
  destruct (AddWord_effect c f p d s Hdb) as (d1 & r1 & s' & Hadd1 & _ & Hdb' & Heff).
  rewrite Hadd in Hadd1. injection Hadd1 as <- <-.
  pose proof (λ w, contains_after_AddWord c f p d d' r w Hadd) as Hiff.
  destruct r as [err|].
  - destruct Heff as (Hdata & Hseg & Herr). repeat split; try assumption.
    exists s'. split; [exact Hdb'|]. intros w. rewrite Hiff, Hsync, Hdata. tauto.
  - destruct Heff as ((data & _ & Hdata) & Hseg). split; [|exact Hseg].
    exists s'. split; [exact Hdb'|]. intros w. rewrite Hiff, Hsync, Hdata.
    destruct (decide (w = c)) as [->|Hne].
    + rewrite lookup_insert_eq. split; eauto.
    + rewrite lookup_insert_ne by congruence. intuition congruence.
Qed.
End AddWordFacts.

Section LearnFacts.
Import participle consistency.
Context `{CharClass} `{Codec} `{Tokenizer}.

Lemma LearnFromText_loop_spec (tokens : list string) (d : Engine) (s : badger.DB) :
  badger.db (dbEngine d) = Some s →
  ∃ d' r s',
    LearnFromText_loop tokens d = Some (d', r)
    ∧ badger.db (dbEngine d') = Some s'
    ∧ (∀ w, containsWord w d = true → containsWord w d' = true)
    ∧ (∀ w, containsWord w d' = true →
            containsWord w d = true ∨ (w ∈ tokens ∧ ((1 < String.length w)%nat ∧ IsSpecialChar w = false)))
    ∧ (synced d →
       match r with
       | None => synced d'
       | Some _ => ∃ c, c ∈ tokens ∧ ((1 < String.length c)%nat ∧ IsSpecialChar c = false) ∧ ahead_by c d'
       end)
    ∧ match r with
      | None => ∀ w, w ∈ tokens → ((1 < String.length w)%nat ∧ IsSpecialChar w = false) → containsWord w d' = true
      | Some err =>
          ∃ e, err = ErrWrap "添加新词失败" (ErrWrap "save content to db fail" e)
      end.
Proof.
  revert d s; induction tokens as [|tok rest IH]; intros d s Hdb.
  - exists d, None, s. simpl. repeat split; auto.
    intros w Hw. inversion Hw.
  - cbn [LearnFromText_loop].
    destruct ((String.length tok <=? 1)%nat || IsSpecialChar tok) eqn:Hskip.
    { destruct (IH d s Hdb) as (d' & r & s' & Hrun & Hdb' & Hmono & Honly & Hsync & Hres).
      exists d', r, s'. repeat split; try assumption.
      - intros w Hw. destruct (Honly w Hw) as [?|[? ?]]; [auto|].
        right. split; [now right | assumption].
      - intros Hs. specialize (Hsync Hs). destruct r; [|exact Hsync].
        destruct Hsync as (c & Hc & Hrest). exists c. split; [now right | exact Hrest].
      - destruct r; [exact Hres|].
        intros w Hw [Hlen Hspec]. apply elem_of_cons in Hw as [->|Hw]; [|now apply Hres].
        apply orb_true_iff in Hskip as [Hl|Hsp]; [|congruence].
        apply Nat.leb_le in Hl. lia. }
    apply orb_false_iff in Hskip as [Hlen Hspec]. apply Nat.leb_gt in Hlen.
    destruct (containsWord tok d) eqn:Hknown; cbn [negb].
    { destruct (IH d s Hdb) as (d' & r & s' & Hrun & Hdb' & Hmono & Honly & Hsync & Hres).
      exists d', r, s'. repeat split; try assumption.
      - intros w Hw. destruct (Honly w Hw) as [?|[? ?]]; [auto|].
        right. split; [now right | assumption].
      - intros Hs. specialize (Hsync Hs). destruct r; [|exact Hsync].
        destruct Hsync as (c & Hc & Hrest). exists c. split; [now right | exact Hrest].
      - destruct r; [exact Hres|].
        intros w Hw Hel. apply elem_of_cons in Hw as [->|Hw]; [|now apply Hres].
        now apply Hmono. }
    destruct (AddWord_effect tok 1000%float "nz" d s Hdb)
      as (d1 & r1 & s1 & Hadd & _ & Hdb1 & _).
    pose proof (λ w, contains_after_AddWord tok _ _ d d1 r1 w Hadd) as Hiff.
    rewrite Hadd. destruct r1 as [err|].
    { exists d1, (Some (ErrWrap "添加新词失败" err)), s1.
      split; [reflexivity|]. split; [exact Hdb1|]. repeat split.
      - intros w Hw. apply Hiff. now right.
      - intros w Hw. apply Hiff in Hw as [->|Hw]; [|now left].
        right. split; [left | split; assumption].
      - intros Hs. exists tok. split; [left|]. split; [split; assumption|].
        now destruct (synced_after_AddWord tok _ _ d d1 _ Hs Hadd) as (Ha & _).
      - destruct (AddWord_effect tok 1000%float "nz" d s Hdb)
          as (d2 & r2 & s2 & Hadd2 & _ & _ & Heff).
        rewrite Hadd in Hadd2. injection Hadd2 as <- <-.
        destruct Heff as (_ & _ & e & ->). eauto. }
    destruct (IH d1 s1 Hdb1) as (d' & r & s' & Hrun & Hdb' & Hmono & Honly & Hsync & Hres).
    exists d', r, s'. repeat split; try assumption.
    + intros w Hw. apply Hmono, Hiff. now right.
    + intros w Hw. destruct (Honly w Hw) as [Hw1|[Hin Hel]].
      * apply Hiff in Hw1 as [->|Hw1]; [|now left].
        right. split; [left | split; assumption].
      * right. split; [now right | assumption].
    + intros Hs.
      destruct (synced_after_AddWord tok _ _ d d1 _ Hs Hadd) as (Hs1 & _).
      specialize (Hsync Hs1). destruct r; [|exact Hsync].
      destruct Hsync as (c & Hc & Hrest). exists c. split; [now right | exact Hrest].
    + destruct r; [exact Hres|].
      intros w Hw Hel. apply elem_of_cons in Hw as [->|Hw]; [|now apply Hres].
      apply Hmono, Hiff. now left.
Qed.

(** On an open database, a [LearnFromText] that succeeds leaves in the
    tree the words it had and the tokens of the text that are longer than
    one byte and have no special character, and nothing else. *)
Theorem LearnFromText_learns_exactly
        (text : string) (d d' : Engine) (s : badger.DB) (w : string) :
  badger.db (dbEngine d) = Some s →
  LearnFromText text d = Some (d', None) →
  (containsWord w d' = true ↔
     containsWord w d = true
     ∨ (w ∈ Cut (segmenter d) text true
        ∧ (1 < String.length w)%nat ∧ IsSpecialChar w = false)).
Proof.
  intros Hdb Hrun. unfold LearnFromText in Hrun.
  destruct (LearnFromText_loop_spec (Cut (segmenter d) text true) d s Hdb)
    as (d1 & r & s' & Hrun1 & _ & Hmono & Honly & _ & Hres).
  rewrite Hrun in Hrun1. injection Hrun1 as <- <-.
  split; [apply Honly|]. intros [Hw|[Hin Hel]]; [now apply Hmono | now apply Hres].
Qed.

(** When [LearnFromText] fails, its error is the error of the write
    wrapped twice, the tree still has every word it had, and what it has
    gained are tokens of the text that pass the noise filter. *)
Theorem LearnFromText_failure
        (text : string) (d d' : Engine) (s : badger.DB) (err : error) :
  badger.db (dbEngine d) = Some s →
  LearnFromText text d = Some (d', Some err) →
  (∃ e, err = ErrWrap "添加新词失败" (ErrWrap "save content to db fail" e))
  ∧ (∀ w, containsWord w d = true → containsWord w d' = true)
  ∧ (∀ w, containsWord w d' = true →
          containsWord w d = true
          ∨ (w ∈ Cut (segmenter d) text true
             ∧ (1 < String.length w)%nat ∧ IsSpecialChar w = false)).
Proof.
  intros Hdb Hrun. unfold LearnFromText in Hrun.
  destruct (LearnFromText_loop_spec (Cut (segmenter d) text true) d s Hdb)
    as (d1 & r & s' & Hrun1 & _ & Hmono & Honly & _ & Hres).
  rewrite Hrun in Hrun1. injection Hrun1 as <- <-. auto.
Qed.


(** A text whose tokens are all noise or already known changes nothing:
    no word is added, nothing is written, the segmenter is left alone. *)
Theorem LearnFromText_nothing_new (text : string) (d : Engine) :
  (∀ w, w ∈ Cut (segmenter d) text true →
        (String.length w ≤ 1)%nat ∨ IsSpecialChar w = true
        ∨ containsWord w d = true) →
  LearnFromText text d = Some (d, None).
Proof.
  unfold LearnFromText. generalize (Cut (segmenter d) text true) as tokens.
  induction tokens as [|tok rest IH]; intros Hall; [reflexivity|].
  cbn [LearnFromText_loop].
  assert (Hrest : LearnFromText_loop rest d = Some (d, None)).
  { apply IH. intros w Hw. apply Hall. now right. }
  destruct (Hall tok) as [Hlen|[Hsp|Hknown]]; [left|..].
  - apply Nat.leb_le in Hlen. now rewrite Hlen.
  - now rewrite Hsp, orb_true_r.
  - rewrite Hknown. cbn [negb]. now destruct (_ || _).
Qed.
End LearnFacts.

(** ** More on the engine lifecycle *)

Section LifecycleMore.
Import badger lifecycle.

Lemma interval_positive_step (ev : Event) (w w' : World) :
  interval_positive w → step ev w = Some w' → interval_positive w'.
Proof.
  unfold interval_positive, step. intros Hpos Hstep.
  destruct (crashed w); [discriminate|].
  destruct ev.
  - destruct (gcState w); [|discriminate]. injection Hstep as <-.
    pose proof (startGcTicker_fields w) as (_ & _ & T3 & _). simpl. now rewrite T3.
  - destruct (0 <=? dt); [|discriminate]. now injection Hstep as <-.
  - destruct (gcState w); [discriminate|].
    destruct (gcTickReady w); [|discriminate]. injection Hstep as <-.
    unfold RunValueLogGC, takeGcTick.
    destruct (gcTicker (eng w)); simpl; destruct (db (eng w)); exact Hpos.
  - unfold SetGCInterval in Hstep. destruct (0 >=? d) eqn:Hd.
    + now injection Hstep as <-.
    + destruct (gcState w); [discriminate|]. injection Hstep as <-.
      rewrite Z.geb_leb in Hd. apply Z.leb_gt in Hd.
      unfold updateGcInterval.
      match goal with |- context [stopGcTicker ?x] =>
        pose proof (stopGcTicker_fields x) as (_ & _ & _ & S4 & _);
        pose proof (startGcTicker_fields (stopGcTicker x)) as (_ & _ & T3 & _)
      end.
      destruct (crashed (stopGcTicker _)); rewrite ?T3, S4; exact Hd.
  - destruct (closeState w); try discriminate.
    destruct (listenerState w); try discriminate.
    now injection Hstep as <-.
  - destruct (listenerState w); try discriminate.
    injection Hstep as <-. unfold listenerCloseBody.
    destruct (db (eng w)); [|exact Hpos].
    match goal with |- context [stopGcTicker ?x] =>
      pose proof (stopGcTicker_fields x) as (_ & _ & _ & S4 & _)
    end.
    simpl in *. now rewrite S4.
  - destruct (closeState w); try discriminate.
    destruct (listenerState w); try discriminate.
    now injection Hstep as <-.
  - destruct (closeState w) as [|t| |]; try discriminate.
    destruct (Second * 5 <=? t); [|discriminate].
    now injection Hstep as <-.
  - destruct (closeState w); try discriminate.
    now injection Hstep as <-.
Qed.

Lemma interval_positive_run (evs : list Event) (w w' : World) :
  interval_positive w → run evs w = Some w' → interval_positive w'.
Proof.
  revert w; induction evs as [|ev evs IH]; intros w Hinv Hrun; simpl in Hrun.
  - now injection Hrun as <-.
  - destruct (step ev w) as [w1|] eqn:Hstep; [|discriminate].
    eapply IH; [|exact Hrun]. eapply interval_positive_step; eauto.
Qed.

(** The process stops in two ways only: [listenerClose] runs before
    [listenerGC] has created the ticker and stops a nil ticker, or a tick
    is handled when the database has been closed and [e.db] is nil.
    Nothing else panics; in particular no ticker is ever started with an
    interval that [time.NewTicker] refuses. *)
Theorem crash_only_two_ways (d0 : DB) (evs : list Event) (ev : Event) (w w' : World) :
  run evs (new d0) = Some w → step ev w = Some w' → crashed w' = true →
  (ev = ListenerClose ∧ gcState w = GCInit)
  ∨ (ev = GCTick ∧ db (eng w) = None).
Proof.
  intros Hrun Hstep Hcrash.
  pose proof (handshake_inv_run d0 evs _ _ (handshake_inv_new d0) Hrun) as Hhs.
  pose proof (ticker_inv_run evs _ _ (ticker_inv_new d0) Hrun) as Htk.
  assert (Hpos : interval_positive w).
  { eapply interval_positive_run; [|exact Hrun]. unfold interval_positive. simpl.
    unfold Minute. lia. }
  unfold interval_positive in Hpos.
  unfold step in Hstep. destruct (crashed w) eqn:Hc; [discriminate|].
  destruct ev.
  - exfalso. destruct (gcState w); [|discriminate]. injection Hstep as <-.
    unfold startGcTicker, NewTicker in Hcrash.
    destruct (gcInterval (eng w) <=? 0) eqn:E; [apply Z.leb_le in E; lia|].
    simpl in Hcrash. congruence.
  - exfalso. destruct (0 <=? dt); [|discriminate]. injection Hstep as <-.
    simpl in Hcrash. congruence.
  - right. split; [reflexivity|].
    destruct (gcState w); [discriminate|].
    destruct (gcTickReady w); [|discriminate]. injection Hstep as <-.
    unfold RunValueLogGC, takeGcTick in Hcrash.
    destruct (db (eng w)) eqn:Edb; [|reflexivity]. exfalso.
    destruct (gcTicker (eng w)); simpl in Hcrash; rewrite Edb in Hcrash;
      simpl in Hcrash; congruence.
  - exfalso. unfold SetGCInterval in Hstep. destruct (0 >=? d) eqn:Hd.
    + injection Hstep as <-. congruence.
    + destruct (gcState w) eqn:Hg; [discriminate|]. injection Hstep as <-.
      rewrite Z.geb_leb in Hd. apply Z.leb_gt in Hd.
      destruct (Htk Hc Hg) as (i & Hi & _).
      rewrite (updateGcInterval_eq d w i Hd Hc Hi) in Hcrash. discriminate.
  - exfalso. destruct (closeState w); try discriminate.
    destruct (listenerState w); try discriminate.
    injection Hstep as <-. simpl in Hcrash. congruence.
  - left. split; [reflexivity|].
    destruct (listenerState w) eqn:HL; try discriminate.
    injection Hstep as <-.
    destruct (gcState w) eqn:Hg; [reflexivity|]. exfalso.
    destruct (Htk Hc Hg) as (i & Hi & _).
    assert (Hdb : db (eng w) = Some d0).
    { unfold handshake_inv in Hhs. rewrite HL in Hhs.
      destruct (closeState w) as [|t| |[] v]; try contradiction; tauto. }
    unfold listenerCloseBody, stopGcTicker in Hcrash.
    rewrite Hdb in Hcrash. simpl in Hcrash. rewrite Hi in Hcrash.
    simpl in Hcrash. congruence.
  - exfalso. destruct (closeState w); try discriminate.
    destruct (listenerState w); try discriminate.
    injection Hstep as <-. simpl in Hcrash. congruence.
  - exfalso. destruct (closeState w) as [|t| |]; try discriminate.
    destruct (Second * 5 <=? t); [|discriminate].
    injection Hstep as <-. simpl in Hcrash. congruence.
  - exfalso. destruct (closeState w); try discriminate.
    injection Hstep as <-. simpl in Hcrash. congruence.
Qed.

(** What [Close] returns, in every run of an engine opened on [d0].  At
    most one shutdown request is sent, and a [Close] that has returned
    has sent exactly one.  Returned on the acknowledgement, its result
    is the error of the database close (nil for a clean close) and
    [listenerClose] has finished.  Returned from the timeout branch, its
    result is never nil: it is the timeout error, or the error of the
    database close.  While [Close] waits and nothing has panicked, the
    timeout branch can be taken exactly from 5 seconds of waiting on, the
    acknowledgement is taken when offered, and the timeout branch, run
    through at once, returns the timeout error. *)
Theorem Close_result_in_every_run (d0 : DB) (evs : list Event) (w : World) :
  run evs (new d0) = Some w →
  (requests w ≤ 1)%nat
  ∧ (∀ p v, closeState w = CReturned p v →
       requests w = 1%nat
       ∧ match p with
         | ByAck => listenerState w = LDone ∧ v = close_result d0
         | ByTimeout =>
             v ≠ None ∧ (v = Some ErrCloseTimeout ∨ v = close_result d0)
         end)
  ∧ (∀ t, closeState w = CWaiting t → crashed w = false →
       (is_Some (step CloseTimeout w) ↔ Second * 5 ≤ t)
       ∧ (listenerState w = LAcking →
            ∃ w', step CloseAck w = Some w'
                  ∧ closeState w' = CReturned ByAck (close_result d0))
       ∧ ∃ w', run [Advance (Z.max 0 (Second * 5 - t)); CloseTimeout;
                    CloseTimeoutReturn] w = Some w'
               ∧ closeState w' = CReturned ByTimeout (Some ErrCloseTimeout)).
Proof.
  intros Hrun.
  pose proof (handshake_inv_run d0 evs _ _ (handshake_inv_new d0) Hrun) as Hinv.
  unfold handshake_inv in Hinv.
  split; [|split].
  - destruct (closeState w) as [|t| |[] v], (listenerState w);
      try contradiction; destruct Hinv as [-> _]; lia.
  - intros p v Hret. rewrite Hret in Hinv.
    destruct p, (listenerState w); try contradiction.
    + destruct Hinv as [-> ->]. auto.
    + destruct Hinv as (-> & -> & _).
      split; [reflexivity|]. split; [discriminate | now left].
    + destruct Hinv as (-> & [-> | [-> Hne]]);
        (split; [reflexivity|]); (split; [|auto]); [discriminate | exact Hne].
  - intros t Hwait Hc. rewrite Hwait in Hinv. split; [|split].
    + unfold step. rewrite Hc, Hwait.
      destruct (Second * 5 <=? t) eqn:E.
      * apply Z.leb_le in E. split; [auto | eauto].
      * apply Z.leb_gt in E. split; [intros [x Hx]; discriminate | lia].
    + intros HL. rewrite HL in Hinv. destruct Hinv as [_ Herr].
      unfold step. rewrite Hc, Hwait, HL. eexists; split; [reflexivity|].
      simpl. now rewrite Herr.
    + unfold run, step. rewrite Hc.
      destruct (0 <=? Z.max 0 (Second * 5 - t)) eqn:E0; [|apply Z.leb_gt in E0; lia].
      simpl. rewrite Hc, Hwait.
      destruct (Second * 5 <=? t + Z.max 0 (Second * 5 - t)) eqn:E1;
        [|apply Z.leb_gt in E1; lia].
      simpl. rewrite Hc. eexists; split; reflexivity.
Qed.
End LifecycleMore.

Section TickerHeap.
Import badger lifecycle.

Lemma running_after_stop (i j : nat) (ts : list Ticker) (t : Ticker) :
  alter Ticker_Stop i ts !! j = Some t → running t = true →
  j ≠ i ∧ ts !! j = Some t.
Proof.
  intros Hl Hr. destruct (decide (j = i)) as [->|Hne].
  - rewrite list_lookup_alter_eq in Hl.
    destruct (ts !! i); simpl in Hl; [|discriminate].
    injection Hl as <-. discriminate.
  - now rewrite list_lookup_alter_ne in Hl by congruence.
Qed.

Lemma running_after_take (i j : nat) (ts : list Ticker) (t : Ticker) :
  alter (λ t0, mkTicker (period t0) (running t0) (elapsed t0) false) i ts !! j
    = Some t →
  running t = true →
  ∃ t0, ts !! j = Some t0 ∧ running t0 = true.
Proof.
  intros Hl Hr. destruct (decide (j = i)) as [->|Hne].
  - rewrite list_lookup_alter_eq in Hl.
    destruct (ts !! i) as [t0|]; simpl in Hl; [|discriminate].
    injection Hl as <-. eauto.
  - rewrite list_lookup_alter_ne in Hl by congruence. eauto.
Qed.

Lemma one_ticker_runs_stop (w : World) :
  one_ticker_runs w → gcState w = GCSelect →
  gcState (stopGcTicker w) = GCSelect
  ∧ gcTicker (eng (stopGcTicker w)) = gcTicker (eng w)
  ∧ (crashed (stopGcTicker w) = false →
     ∀ j t, timers (stopGcTicker w) !! j = Some t → running t = false)
  ∧ one_ticker_runs (stopGcTicker w).
Proof.
  intros [_ Hone] Hg. unfold stopGcTicker.
  destruct (gcTicker (eng w)) as [i|] eqn:Hi; simpl.
  - repeat split; try assumption.
    + intros _ j t Hl. destruct (running t) eqn:Hr; [|reflexivity].
      destruct (running_after_stop _ _ _ _ Hl Hr) as [Hne Hl'].
      specialize (Hone _ _ Hl' Hr). congruence.
    + simpl. congruence.
    + simpl. intros j t Hl Hr.
      destruct (running_after_stop _ _ _ _ Hl Hr) as [Hne Hl'].
      specialize (Hone _ _ Hl' Hr). congruence.
  - split; [exact Hg|]. split; [exact Hi|]. split; [discriminate|].
    split; simpl; [congruence | rewrite Hi; exact Hone].
Qed.

Lemma one_ticker_runs_start (w : World) :
  (crashed w = false → ∀ j t, timers w !! j = Some t → running t = false) →
  (∀ j t, timers w !! j = Some t → running t = true → gcTicker (eng w) = Some j) →
  crashed w = false →
  ∀ i t, timers (startGcTicker w) !! i = Some t → running t = true →
         gcTicker (eng (startGcTicker w)) = Some i.
Proof.
  intros Hnone Hone Hc i t. unfold startGcTicker.
  destruct (NewTicker _) as [nt|]; simpl; [|apply Hone].
  intros Hl Hr. destruct (decide (i < length (timers w))%nat) as [Hlt|Hge].
  - rewrite lookup_app_l in Hl by exact Hlt.
    rewrite (Hnone Hc _ _ Hl) in Hr. discriminate.
  - apply lookup_lt_Some in Hl. rewrite length_app in Hl. simpl in Hl.
    f_equal. lia.
Qed.

Lemma one_ticker_runs_step (ev : Event) (w w' : World) :
  one_ticker_runs w → step ev w = Some w' → one_ticker_runs w'.
Proof.
  unfold step. intros Hinv Hstep. pose proof Hinv as [Hinit Hone].
  destruct (crashed w) eqn:Hc; [discriminate|].
  destruct ev.
  - destruct (gcState w) eqn:Hg; [|discriminate]. injection Hstep as <-.
    split; [simpl; discriminate|]. simpl.
    apply one_ticker_runs_start; try assumption.
    intros _ j t Hl. rewrite (Hinit eq_refl) in Hl. discriminate.
  - destruct (0 <=? dt); [|discriminate]. injection Hstep as <-.
    split; simpl.
    + intros Hg. now rewrite (Hinit Hg).
    + intros i t Hl Hr. rewrite list_lookup_fmap in Hl.
      destruct (timers w !! i) as [t0|] eqn:Hl0; [|discriminate].
      injection Hl as <-. apply (Hone i t0 Hl0).
      unfold Ticker_advance in Hr.
      destruct (running t0) eqn:E; [reflexivity | congruence].
  - destruct (gcState w) eqn:Hg; [discriminate|].
    destruct (gcTickReady w); [|discriminate]. injection Hstep as <-.
    assert (Hsame : gcState (RunValueLogGC (takeGcTick w)) = GCSelect
                    ∧ gcTicker (eng (RunValueLogGC (takeGcTick w))) = gcTicker (eng w)
                    ∧ ∀ j t, timers (RunValueLogGC (takeGcTick w)) !! j = Some t →
                             running t = true →
                             ∃ t0, timers w !! j = Some t0 ∧ running t0 = true).
    { unfold RunValueLogGC, takeGcTick.
      destruct (gcTicker (eng w)) as [i|] eqn:Hi; simpl;
        destruct (db (eng w)) eqn:Hdb; simpl;
        (split; [exact Hg|]); (split; [congruence|]); intros j t Hl Hr; eauto;
        eapply running_after_take; eauto. }
    destruct Hsame as (Hg' & Hi' & Hrun').
    split; [congruence|]. intros j t Hl Hr. rewrite Hi'.
    destruct (Hrun' j t Hl Hr) as (t0 & Hl0 & Hr0). eauto.
  - unfold SetGCInterval in Hstep. destruct (0 >=? d); [now injection Hstep as <-|].
    destruct (gcState w) eqn:Hg; [discriminate|]. injection Hstep as <-.
    unfold updateGcInterval.
    set (w1 := set_eng _ w).
    assert (Hinv1 : one_ticker_runs w1) by (split; simpl; [congruence | exact Hone]).
    destruct (one_ticker_runs_stop w1 Hinv1 Hg) as (Hg2 & Hi2 & Hnone & Hinv2).
    destruct (crashed (stopGcTicker w1)) eqn:Hc2; [exact Hinv2|].
    split.
    + pose proof (startGcTicker_fields (stopGcTicker w1)) as (_ & _ & _ & _ & _ & T6 & _).
      rewrite T6, Hg2. discriminate.
    + apply one_ticker_runs_start;
        [intros _; exact (Hnone eq_refl) | exact (proj2 Hinv2) | exact Hc2].
  - destruct (closeState w); try discriminate.
    destruct (listenerState w); try discriminate.
    now injection Hstep as <-.
  - destruct (listenerState w); try discriminate.
    injection Hstep as <-. unfold listenerCloseBody.
    destruct (db (eng w)); [|exact Hinv].
    set (w1 := set_eng _ w).
    assert (Hinv1 : one_ticker_runs w1) by (split; simpl; assumption).
    unfold stopGcTicker.
    destruct (gcTicker (eng w1)) as [i|] eqn:Hi; simpl.
    + split; simpl.
      * intros Hg. rewrite (Hinit Hg). reflexivity.
      * intros j t Hl Hr. destruct (running_after_stop _ _ _ _ Hl Hr) as [_ Hl'].
        simpl in Hl'. eauto.
    + exact Hinv1.
  - destruct (closeState w); try discriminate.
    destruct (listenerState w); try discriminate.
    now injection Hstep as <-.
  - destruct (closeState w) as [|t| |]; try discriminate.
    destruct (Second * 5 <=? t); [|discriminate].
    now injection Hstep as <-.
  - destruct (closeState w); try discriminate.
    now injection Hstep as <-.
Qed.

(** In every run no ticker but the current one is running: every update
    of the interval stops the ticker it replaces, so no ticker is left
    behind still firing. *)
Theorem no_ticker_left_running (d0 : DB) (evs : list Event) (w : World) :
  run evs (new d0) = Some w →
  ∀ i t, timers w !! i = Some t → running t = true →
         gcTicker (eng w) = Some i.
Proof.
  intros Hrun.
  assert (Hinv : one_ticker_runs w); [|apply Hinv].
  assert (H0 : one_ticker_runs (new d0)).
  { split; [reflexivity|]. intros i t Hl. discriminate. }
  revert Hrun H0. generalize (new d0) as w0.
  induction evs as [|ev evs IH]; intros w0 Hrun H0; simpl in Hrun.
  - now injection Hrun as <-.
  - destruct (step ev w0) as [w1|] eqn:Hstep; [|discriminate].
    eapply IH; [exact Hrun|]. eapply one_ticker_runs_step; eauto.
Qed.
End TickerHeap.

(** ** UTF-8: the four-byte encodings

    The runes above U+FFFF, by arithmetic on their six-bit groups. *)

Section Utf8FourBytes.
Import utf8enc.
Local Open Scope Z_scope.

Lemma all_from_spec (fuel : nat) (z : Z) (f : Z → bool) :
  all_from fuel z f = true →
  ∀ r, (z ≤ r < z + Z.of_nat fuel)%Z → f r = true.
Proof.
  revert z; induction fuel as [|k IH]; intros z Hall r Hr; [lia|].
  simpl in Hall. apply andb_true_iff in Hall as [Hz Hrest].
  destruct (decide (r = z)) as [->|Hne]; [exact Hz|].
  apply (IH (z + 1)%Z Hrest). lia.
Qed.

Lemma byte_val_chr (b : Z) : 0 ≤ b < 256 → byte_val (chr b) = b.
Proof.
  intros Hb. unfold byte_val, chr. rewrite N_ascii_embedding by lia. lia.
Qed.

(** A continuation byte carries six bits. *)
Lemma continuation_byte (m : Z) :
  0 ≤ m < 64 →
  Z.lor tx m = 128 + m ∧ Z.land (128 + m) utf8.maskx = m.
Proof.
  intros Hm.
  assert (Hall : all_from 64 0
            (λ m, (Z.lor tx m =? 128 + m) && (Z.land (128 + m) utf8.maskx =? m))
          = true) by (vm_compute; reflexivity).
  pose proof (all_from_spec _ _ _ Hall m ltac:(lia)) as H.
  apply andb_true_iff in H as [H1 H2]. split; lia.
Qed.

Lemma six_bits (x : Z) : Z.land (byte x) utf8.maskx = x mod 64.
Proof.
  unfold byte. change utf8.maskx with (Z.ones 6).
  rewrite Z.land_ones by lia. change (2 ^ 8) with 256. change (2 ^ 6) with 64.
  Z.to_euclidean_division_equations. lia.
Qed.

Lemma lor_shiftl_6 (x m : Z) :
  0 ≤ x → 0 ≤ m < 64 → Z.lor (Z.shiftl x 6) m = 64 * x + m.
Proof.
  intros Hx Hm. rewrite Z.shiftl_mul_pow2 by lia. change (2 ^ 6) with 64.
  rewrite <- Z.lxor_lor, <- Z.add_nocarry_lxor; [lia| |];
    (apply Z.bits_inj'; intros n Hn; rewrite Z.land_spec, Z.bits_0;
     destruct (Z.ltb_spec n 6) as [Hlt|Hge];
     [ change 64 with (2 ^ 6); rewrite Z.mul_pow2_bits_low by lia; reflexivity
     | rewrite (Z.bits_above_log2 m n), andb_false_r; [reflexivity | lia |];
       destruct (Z.eq_dec m 0) as [->|Hm0]; [simpl; lia|];
       apply Z.log2_lt_pow2; [lia|];
       apply Z.lt_le_trans with (2 ^ 6); [simpl; lia | apply Z.pow_le_mono_r; lia] ]).
Qed.

Lemma DecodeRuneInString_bytes4 (b0 b1 b2 b3 : Z) :
  0 ≤ b0 < 256 → 0 ≤ b1 < 256 → 0 ≤ b2 < 256 → 0 ≤ b3 < 256 →
  utf8.first b0 = utf8.s5 ∨ utf8.first b0 = utf8.s6 ∨ utf8.first b0 = utf8.s7 →
  fst (utf8.acceptRanges (Z.shiftr (utf8.first b0) 4)) ≤ b1
    ≤ snd (utf8.acceptRanges (Z.shiftr (utf8.first b0) 4)) →
  utf8.locb ≤ b2 ≤ utf8.hicb → utf8.locb ≤ b3 ≤ utf8.hicb →
  utf8.DecodeRuneInString (bytes4 b0 b1 b2 b3)
  = (Z.lor (Z.lor (Z.lor (Z.shiftl (Z.land b0 utf8.mask4) 18)
                         (Z.shiftl (Z.land b1 utf8.maskx) 12))
                  (Z.shiftl (Z.land b2 utf8.maskx) 6))
           (Z.land b3 utf8.maskx), 4%nat).
Proof.
  intros H0 H1 H2 H3 Hx Hacc Hb2 Hb3.
  unfold utf8.DecodeRuneInString.
  change (String.length (bytes4 b0 b1 b2 b3)) with 4%nat.
  change (byte_at 0 (bytes4 b0 b1 b2 b3)) with (byte_val (chr b0)).
  change (byte_at 1 (bytes4 b0 b1 b2 b3)) with (byte_val (chr b1)).
  change (byte_at 2 (bytes4 b0 b1 b2 b3)) with (byte_val (chr b2)).
  change (byte_at 3 (bytes4 b0 b1 b2 b3)) with (byte_val (chr b3)).
  rewrite !byte_val_chr by assumption.
  change (4 <? 1)%nat with false. cbv iota.
  set (x := utf8.first b0) in *.
  assert (Hsz : (utf8.as_ <=? x) = false ∧ Z.to_nat (Z.land x 7) = 4%nat).
  { destruct Hx as [->|[->| ->]]; split; reflexivity. }
  destruct Hsz as [-> ->]. cbv iota.
  change (4 <? 4)%nat with false. change (4 <=? 2)%nat with false.
  change (4 <=? 3)%nat with false. cbv iota.
  replace (b1 <? fst (utf8.acceptRanges (Z.shiftr x 4))) with false
    by (symmetry; apply Z.ltb_ge; lia).
  replace (snd (utf8.acceptRanges (Z.shiftr x 4)) <? b1) with false
    by (symmetry; apply Z.ltb_ge; lia).
  replace (b2 <? utf8.locb) with false by (symmetry; apply Z.ltb_ge; lia).
  replace (utf8.hicb <? b2) with false by (symmetry; apply Z.ltb_ge; lia).
  replace (b3 <? utf8.locb) with false by (symmetry; apply Z.ltb_ge; lia).
  replace (utf8.hicb <? b3) with false by (symmetry; apply Z.ltb_ge; lia).
  reflexivity.
Qed.

Lemma string_of_rune_supplementary (r : Z) :
  0x10000 ≤ r ≤ 0x10FFFF →
  string_of_rune r
  = bytes4 (240 + r / 262144) (128 + (r / 4096) mod 64)
           (128 + (r / 64) mod 64) (128 + r mod 64).
Proof.
  intros Hr. unfold string_of_rune, AppendRune.
  assert (Hu : uint32 r = r) by (unfold uint32; apply Z.mod_small; lia).
  rewrite Hu.
  unfold rune1Max, rune2Max, rune3Max, MaxRune, surrogateMin, surrogateMax.
  replace (r <=? 127) with false by (symmetry; apply Z.leb_gt; lia).
  replace (r <=? 2047) with false by (symmetry; apply Z.leb_gt; lia).
  replace (r <? 55296) with false by (symmetry; apply Z.ltb_ge; lia).
  replace (r <=? 65535) with false by (symmetry; apply Z.leb_gt; lia).
  replace (65535 <? r) with true by (symmetry; apply Z.ltb_lt; lia).
  replace (r <=? 1114111) with true by (symmetry; apply Z.leb_le; lia).
  rewrite andb_false_r. cbv [orb andb].
  rewrite !six_bits, !Z.shiftr_div_pow2 by lia.
  change (2 ^ 18) with 262144. change (2 ^ 12) with 4096. change (2 ^ 6) with 64.
  destruct (continuation_byte ((r / 4096) mod 64)) as [-> _];
    [Z.to_euclidean_division_equations; lia|].
  destruct (continuation_byte ((r / 64) mod 64)) as [-> _];
    [Z.to_euclidean_division_equations; lia|].
  destruct (continuation_byte (r mod 64)) as [-> _];
    [Z.to_euclidean_division_equations; lia|].
  assert (Hh : 0 ≤ r / 262144 ≤ 4) by (Z.to_euclidean_division_equations; lia).
  assert (Hb : byte (r / 262144) = r / 262144)
    by (unfold byte; apply Z.mod_small; lia).
  rewrite Hb.
  assert (Hlead : Z.lor t4 (r / 262144) = 240 + r / 262144).
  { assert (Hc : r / 262144 = 0 ∨ r / 262144 = 1 ∨ r / 262144 = 2
                 ∨ r / 262144 = 3 ∨ r / 262144 = 4) by lia.
    destruct Hc as [Hc|[Hc|[Hc|[Hc|Hc]]]]; rewrite Hc; reflexivity. }
  rewrite Hlead. reflexivity.
Qed.

Lemma roundtrips_supplementary (r : Z) :
  0x10000 ≤ r ≤ 0x10FFFF → roundtrips r = true.
Proof.
  intros Hr. unfold roundtrips. rewrite (string_of_rune_supplementary r Hr).
  set (h := r / 262144). set (m1 := (r / 4096) mod 64).
  set (m2 := (r / 64) mod 64). set (m3 := r mod 64).
  assert (Hh : 0 ≤ h ≤ 4) by (subst h; Z.to_euclidean_division_equations; lia).
  assert (Hm1 : 0 ≤ m1 < 64) by (subst m1; Z.to_euclidean_division_equations; lia).
  assert (Hm2 : 0 ≤ m2 < 64) by (subst m2; Z.to_euclidean_division_equations; lia).
  assert (Hm3 : 0 ≤ m3 < 64) by (subst m3; Z.to_euclidean_division_equations; lia).
  assert (Hlow : h = 0 → 16 ≤ m1)
    by (subst h m1; Z.to_euclidean_division_equations; lia).
  assert (Hhigh : h = 4 → m1 ≤ 15)
    by (subst h m1; Z.to_euclidean_division_equations; lia).
  assert (Hsum : r = 64 * (64 * (64 * h + m1) + m2) + m3)
    by (subst h m1 m2 m3; Z.to_euclidean_division_equations; lia).
  assert (Hfirst :
    (utf8.first (240 + h) = utf8.s5 ∨ utf8.first (240 + h) = utf8.s6
     ∨ utf8.first (240 + h) = utf8.s7)
    ∧ fst (utf8.acceptRanges (Z.shiftr (utf8.first (240 + h)) 4)) ≤ 128 + m1
        ≤ snd (utf8.acceptRanges (Z.shiftr (utf8.first (240 + h)) 4))
    ∧ Z.land (240 + h) utf8.mask4 = h).
  { assert (Hc : h = 0 ∨ h = 1 ∨ h = 2 ∨ h = 3 ∨ h = 4) by lia.
    destruct Hc as [Hc|[Hc|[Hc|[Hc|Hc]]]]; rewrite Hc;
      (split; [auto|]); (split; [|reflexivity]);
      match goal with
      | |- context [utf8.acceptRanges ?a] =>
          let v := eval vm_compute in (utf8.acceptRanges a) in
          change (utf8.acceptRanges a) with v
      end; cbv [fst snd]; lia. }
  destruct Hfirst as (Hx & Hacc & Hmask).
  rewrite DecodeRuneInString_bytes4;
    [| lia | lia | lia | lia | exact Hx | exact Hacc
     | unfold utf8.locb, utf8.hicb; lia | unfold utf8.locb, utf8.hicb; lia].
  rewrite Hmask.
  rewrite (proj2 (continuation_byte m1 Hm1)), (proj2 (continuation_byte m2 Hm2)),
    (proj2 (continuation_byte m3 Hm3)).
  change (byte_at 0 (bytes4 (240 + h) (128 + m1) (128 + m2) (128 + m3)))
    with (byte_val (chr (240 + h))).
  rewrite byte_val_chr by lia.
  change (String.length (bytes4 (240 + h) (128 + m1) (128 + m2) (128 + m3)))
    with 4%nat.
  assert (Hval : Z.lor (Z.lor (Z.lor (Z.shiftl h 18) (Z.shiftl m1 12))
                              (Z.shiftl m2 6)) m3 = r).
  { replace (Z.shiftl h 18) with (Z.shiftl (Z.shiftl (Z.shiftl h 6) 6) 6)
      by (rewrite !Z.shiftl_shiftl by lia; reflexivity).
    replace (Z.shiftl m1 12) with (Z.shiftl (Z.shiftl m1 6) 6)
      by (rewrite !Z.shiftl_shiftl by lia; reflexivity).
    rewrite <- !Z.shiftl_lor.
    rewrite (lor_shiftl_6 h m1) by lia.
    rewrite (lor_shiftl_6 (64 * h + m1) m2) by lia.
    rewrite (lor_shiftl_6 (64 * (64 * h + m1) + m2) m3) by lia.
    lia. }
  rewrite Hval, Z.eqb_refl. cbv [andb]. 
  replace (Z.land (utf8.first (240 + h)) 7) with 4
    by (destruct Hx as [->|[->| ->]]; reflexivity).
  rewrite orb_true_r. reflexivity.
Qed.
End Utf8FourBytes.

(** ** UTF-8 text *)

Section Utf8RoundTrip.
Import participle utf8enc.
Local Open Scope nat_scope.

Lemma string_app_length (s1 s2 : string) :
  String.length (s1 ++ s2)%string = String.length s1 + String.length s2.
Proof.
  induction s1 as [|c s1 IH]; [reflexivity|].
  change (S (String.length (s1 ++ s2)%string) = S (String.length s1) + String.length s2).
  now rewrite IH.
Qed.

Lemma byte_at_app (i : nat) (s rest : string) :
  i < String.length s → byte_at i (s ++ rest)%string = byte_at i s.
Proof.
  unfold byte_at. revert i; induction s as [|c s IH]; intros i Hi; simpl in Hi; [lia|].
  change ((String c s ++ rest)%string) with (String c (s ++ rest)%string).
  destruct i as [|i]; [reflexivity|]. simpl. apply IH. lia.
Qed.

Lemma string_take_app (s rest : string) :
  string_take (String.length s) (s ++ rest)%string = s.
Proof.
  induction s as [|c s IH]; [now destruct rest|].
  change ((String c s ++ rest)%string) with (String c (s ++ rest)%string).
  simpl. now rewrite IH.
Qed.

Lemma string_drop_app (s rest : string) :
  string_drop (String.length s) (s ++ rest)%string = rest.
Proof.
  induction s as [|c s IH]; [now destruct rest|].
  change ((String c s ++ rest)%string) with (String c (s ++ rest)%string).
  simpl. exact IH.
Qed.

Lemma string_app_assoc (s1 s2 s3 : string) :
  ((s1 ++ s2) ++ s3)%string = (s1 ++ (s2 ++ s3))%string.
Proof.
  induction s1 as [|c s1 IH]; [reflexivity|].
  change (String c ((s1 ++ s2) ++ s3)%string = String c (s1 ++ (s2 ++ s3))%string).
  now rewrite IH.
Qed.

Lemma string_app_empty_r (s : string) : (s ++ EmptyString)%string = s.
Proof.
  induction s as [|c s IH]; [reflexivity|].
  change (String c (s ++ EmptyString)%string = String c s). now rewrite IH.
Qed.

(** What follows the first rune does not change how it is decoded, when
    the string holds the bytes its first byte announces. *)
Lemma DecodeRuneInString_app (s rest : string) :
  s ≠ EmptyString →
  (utf8.as_ <=? utf8.first (byte_at 0 s))%Z = true
  ∨ Z.to_nat (Z.land (utf8.first (byte_at 0 s)) 7) ≤ String.length s →
  utf8.DecodeRuneInString (s ++ rest)%string = utf8.DecodeRuneInString s.
Proof.
  intros Hs Hsz.
  assert (Hlen : 1 ≤ String.length s) by (destruct s; simpl; [congruence | lia]).
  unfold utf8.DecodeRuneInString.
  rewrite string_app_length, (byte_at_app 0) by lia.
  destruct (String.length s + String.length rest <? 1) eqn:E0;
    [apply Nat.ltb_lt in E0; lia|].
  destruct (String.length s <? 1) eqn:E1; [apply Nat.ltb_lt in E1; lia|].
  destruct (utf8.as_ <=? utf8.first (byte_at 0 s))%Z eqn:Eas; [reflexivity|].
  destruct Hsz as [Hsz|Hsz]; [discriminate|].
  pose proof (first_small _ Eas) as H2.
  set (sz := Z.to_nat (Z.land (utf8.first (byte_at 0 s)) 7)) in *.
  destruct (String.length s + String.length rest <? sz) eqn:E2;
    [apply Nat.ltb_lt in E2; lia|].
  destruct (String.length s <? sz) eqn:E3; [apply Nat.ltb_lt in E3; lia|].
  rewrite (byte_at_app 1) by lia.
  destruct (_ || _)%bool; [reflexivity|].
  destruct (sz <=? 2) eqn:E4; [reflexivity|]. apply Nat.leb_gt in E4.
  rewrite (byte_at_app 2) by lia.
  destruct (_ || _)%bool; [reflexivity|].
  destruct (sz <=? 3) eqn:E5; [reflexivity|]. apply Nat.leb_gt in E5.
  rewrite (byte_at_app 3) by lia. reflexivity.
Qed.

(** The check, run on every scalar value of the basic plane, below and
    above the surrogates. *)
Lemma roundtrips_below_surrogates :
  all_from (Z.to_nat 0xD800) 0 roundtrips = true.
Proof. vm_cast_no_check (eq_refl true). Qed.

Lemma roundtrips_above_surrogates :
  all_from (Z.to_nat (0x10000 - 0xE000)) 0xE000 roundtrips = true.
Proof. vm_cast_no_check (eq_refl true). Qed.

Lemma roundtrips_valid (r : Z) : valid_rune r → roundtrips r = true.
Proof.
  unfold valid_rune, MaxRune, surrogateMin, surrogateMax. intros [Hr Hns].
  destruct (decide (r < 0xD800)%Z) as [Hlow|Hhigh].
  - apply (all_from_spec _ _ _ roundtrips_below_surrogates). lia.
  - destruct (decide (r < 0x10000)%Z) as [Hbmp|Hsup].
    + apply (all_from_spec _ _ _ roundtrips_above_surrogates). lia.
    + apply roundtrips_supplementary. lia.
Qed.

Lemma string_of_rune_nonempty (r : Z) : string_of_rune r ≠ EmptyString.
Proof.
  unfold string_of_rune, AppendRune.
  repeat match goal with |- context [if ?c then _ else _] => destruct c end;
    discriminate.
Qed.

Lemma string_of_rune_length (r : Z) :
  1 ≤ String.length (string_of_rune r) ≤ 4.
Proof.
  unfold string_of_rune, AppendRune.
  repeat match goal with |- context [if ?c then _ else _] => destruct c end;
    simpl; lia.
Qed.

(** Decoding after encoding: the rune comes back, and exactly its bytes
    are consumed, whatever follows. *)
Lemma DecodeRuneInString_string_of_rune (r : Z) (rest : string) :
  valid_rune r →
  utf8.DecodeRuneInString (string_of_rune r ++ rest)%string
    = (r, String.length (string_of_rune r)).
Proof.
  intros Hv. pose proof (roundtrips_valid r Hv) as Hrt.
  unfold roundtrips in Hrt.
  destruct (utf8.DecodeRuneInString (string_of_rune r)) as [r' n] eqn:Hdec.
  apply andb_true_iff in Hrt as [Hrt Hfirst].
  apply andb_true_iff in Hrt as [Hr Hn].
  apply Z.eqb_eq in Hr. apply Nat.eqb_eq in Hn. subst r' n.
  rewrite DecodeRuneInString_app; [exact Hdec | apply string_of_rune_nonempty |].
  apply orb_true_iff in Hfirst as [Has|Hsz]; [now left|].
  right. apply Nat.eqb_eq in Hsz. lia.
Qed.

Lemma AppendRune_app (p : string) (r : Z) :
  AppendRune p r = (p ++ string_of_rune r)%string.
Proof.
  unfold string_of_rune, AppendRune.
  repeat match goal with |- context [if ?c then _ else _] => destruct c end;
    reflexivity.
Qed.

Lemma fold_AppendRune (rs : list Z) (p : string) :
  fold_left AppendRune rs p = (p ++ string_of_runes rs)%string.
Proof.
  unfold string_of_runes. revert p; induction rs as [|r rs IH]; intros p; simpl.
  - now rewrite string_app_empty_r.
  - rewrite IH, (IH (AppendRune _ _)), !AppendRune_app, string_app_assoc.
    reflexivity.
Qed.

Lemma string_of_runes_cons (r : Z) (rs : list Z) :
  string_of_runes (r :: rs) = (string_of_rune r ++ string_of_runes rs)%string.
Proof.
  unfold string_of_runes at 1. simpl. rewrite fold_AppendRune, AppendRune_app.
  reflexivity.
Qed.

Lemma runes_loop_any_fuel (f1 f2 : nat) (s : string) :
  String.length s <= f1 → String.length s <= f2 →
  runes_loop f1 s = runes_loop f2 s.
Proof.
  revert f2 s; induction f1 as [|f1 IH]; intros f2 s H1 H2.
  - destruct s; [|simpl in H1; lia]. destruct f2; reflexivity.
  - destruct f2 as [|f2].
    + destruct s; [reflexivity | simpl in H2; lia].
    + simpl. destruct (0 <? String.length s) eqn:E; [|reflexivity].
      apply Nat.ltb_lt in E.
      assert (Hs : s ≠ EmptyString) by (intros ->; simpl in E; lia).
      pose proof (DecodeRuneInString_size s Hs) as Hsz.
      destruct (utf8.DecodeRuneInString s) as [rn size]; simpl in Hsz.
      f_equal. apply IH; rewrite string_drop_length; lia.
Qed.

Lemma runes_cons (s : string) :
  s ≠ EmptyString →
  runes s = fst (utf8.DecodeRuneInString s)
              :: runes (string_drop (snd (utf8.DecodeRuneInString s)) s).
Proof.
  intros Hs. pose proof (DecodeRuneInString_size s Hs) as Hsz.
  unfold runes at 1.
  destruct (String.length s) as [|k] eqn:Hk; [lia|].
  simpl. rewrite Hk. simpl.
  destruct (utf8.DecodeRuneInString s) as [rn size]; simpl in *.
  f_equal. apply runes_loop_any_fuel; rewrite ?string_drop_length; lia.
Qed.

Lemma encoded_text_split (rs : list Z) :
  Forall valid_rune rs →
  SplitString (string_of_runes rs) = string_of_rune <$> rs
  ∧ runes (string_of_runes rs) = rs
  ∧ length (SplitString (string_of_runes rs)) = length rs.
Proof.
  intros Hall.
  assert (Hboth : SplitString (string_of_runes rs) = string_of_rune <$> rs
                  ∧ runes (string_of_runes rs) = rs).
  { induction Hall as [|r rs Hr _ [IH1 IH2]]; [split; reflexivity|].
    rewrite string_of_runes_cons.
    pose proof (DecodeRuneInString_string_of_rune r (string_of_runes rs) Hr) as Hdec.
    assert (Hne : (string_of_rune r ++ string_of_runes rs)%string ≠ EmptyString).
    { pose proof (string_of_rune_nonempty r).
      destruct (string_of_rune r); [congruence | discriminate]. }
    rewrite SplitString_cons, runes_cons by exact Hne.
    rewrite Hdec. cbn [fst snd].
    rewrite string_take_app, string_drop_app, IH1, IH2. split; reflexivity. }
  destruct Hboth as [H1 H2]. repeat split; try assumption.
  now rewrite H1, length_fmap.
Qed.
End Utf8RoundTrip.

Section SplitStringPieces.
Import participle.
Local Open Scope nat_scope.

Lemma DecodeRuneInString_size_le_4 (s : string) :
  snd (utf8.DecodeRuneInString s) ≤ 4.
Proof.
  unfold utf8.DecodeRuneInString.
  repeat match goal with |- context [if ?c then _ else _] => destruct c end;
    simpl; lia.
Qed.

Lemma string_take_length (n : nat) (s : string) :
  n ≤ String.length s → String.length (string_take n s) = n.
Proof.
  revert s; induction n as [|n IH]; intros [|c s]; simpl; try lia.
  intros Hn. rewrite IH; lia.
Qed.

(** The pieces [SplitString] returns are one to four bytes long each, so
    there are at most as many as bytes and at least a quarter as many. *)
Theorem SplitString_pieces (s : string) :
  Forall (λ piece, 1 ≤ String.length piece ≤ 4) (SplitString s)
  ∧ length (SplitString s) ≤ String.length s ≤ 4 * length (SplitString s).
Proof.
  remember (String.length s) as n eqn:Hn.
  revert s Hn; induction n as [n IH] using lt_wf_ind; intros s Hn.
  destruct s as [|c r]; [simpl in Hn; subst; split; [constructor | simpl; lia]|].
  rewrite SplitString_cons by discriminate.
  pose proof (DecodeRuneInString_size (String c r) ltac:(discriminate)) as Hsz.
  pose proof (DecodeRuneInString_size_le_4 (String c r)) as H4.
  set (sz := snd (utf8.DecodeRuneInString (String c r))) in *.
  destruct (IH (String.length (string_drop sz (String c r)))
               ltac:(rewrite string_drop_length; lia) _ eq_refl) as [IH1 IH2].
  rewrite string_drop_length in IH2.
  split.
  - constructor; [|exact IH1]. rewrite string_take_length; lia.
  - cbn [length]. lia.
Qed.
End SplitStringPieces.

(** ** The address example *)

Section AddressFacts.
Import participle utf8enc address.
Context `{CharClass}.

Lemma removeEmptyStrings_loop_filter (slice result : list string) :
  removeEmptyStrings_loop slice result
  = result ++ filter (λ s, s ≠ EmptyString) slice.
Proof.
  revert result; induction slice as [|str rest IH]; intros result; simpl.
  - now rewrite app_nil_r.
  - destruct (String.eqb_spec str EmptyString) as [->|Hne]; simpl.
    + rewrite IH, filter_cons_False by congruence. reflexivity.
    + rewrite IH, filter_cons_True by exact Hne.
      now rewrite <- app_assoc.
Qed.

Lemma removeEmptyStrings_nonempty (slice : list string) :
  Forall (λ s, s ≠ EmptyString) slice → removeEmptyStrings slice = slice.
Proof.
  intros Hall. unfold removeEmptyStrings.
  rewrite removeEmptyStrings_loop_filter. simpl.
  induction Hall as [|s l Hs _ IH]; [reflexivity|].
  now rewrite filter_cons_True, IH.
Qed.

Lemma splitBySpecialChar_loop_nonempty (rs : list Z) (parts : list string)
      (cur : string) :
  Forall (λ s, s ≠ EmptyString) parts →
  Forall (λ s, s ≠ EmptyString) (splitBySpecialChar_loop rs parts cur).1.
Proof.
  revert parts cur; induction rs as [|r rest IH]; intros parts cur Hparts; simpl.
  - exact Hparts.
  - destruct (IsSpecialChar (string_of_rune r)); [|now apply IH].
    destruct (0 <? String.length cur)%nat eqn:E; [|now apply IH].
    apply IH. apply Forall_app. split; [exact Hparts|].
    constructor; [|constructor]. intros ->. discriminate.
Qed.

(** [splitBySpecialChar] never returns an empty part, so the
    [removeEmptyStrings] that [analyzeAddress] applies to its result
    changes nothing; and an empty input has no parts. *)
Theorem splitBySpecialChar_no_empty_part (s : string) :
  Forall (λ part, part ≠ EmptyString) (splitBySpecialChar s)
  ∧ removeEmptyStrings (splitBySpecialChar s) = splitBySpecialChar s
  ∧ splitBySpecialChar EmptyString = [].
Proof.
  assert (Hne : Forall (λ part, part ≠ EmptyString) (splitBySpecialChar s)).
  { unfold splitBySpecialChar.
    pose proof (splitBySpecialChar_loop_nonempty (runes s) [] EmptyString
                  ltac:(constructor)) as Hparts.
    destruct (splitBySpecialChar_loop (runes s) [] EmptyString) as [parts cur].
    simpl in Hparts.
    destruct (0 <? String.length cur)%nat eqn:E; [|exact Hparts].
    apply Forall_app. split; [exact Hparts|].
    constructor; [|constructor]. intros ->. discriminate. }
  split; [exact Hne|]. split; [now apply removeEmptyStrings_nonempty | reflexivity].
Qed.
End AddressFacts.

Section AddressSplit.
Import participle utf8enc address.
Context `{CharClass}.

Lemma string_of_runes_app (l1 l2 : list Z) :
  string_of_runes (l1 ++ l2) = (string_of_runes l1 ++ string_of_runes l2)%string.
Proof.
  unfold string_of_runes at 1. rewrite fold_left_app.
  fold (string_of_runes l1). apply fold_AppendRune.
Qed.

Lemma string_of_runes_singleton (r : Z) : string_of_runes [r] = string_of_rune r.
Proof. reflexivity. Qed.

(** On one encoded character the test is the class of the character. *)
Lemma IsSpecialChar_string_of_rune (r : Z) :
  valid_rune r → IsSpecialChar (string_of_rune r) = inPSZ r.
Proof.
  intros Hv. unfold IsSpecialChar.
  destruct (String.eqb_spec (string_of_rune r) EmptyString) as [He|_];
    [now apply string_of_rune_nonempty in He|].
  destruct (encoded_text_split [r]) as (_ & Hr & _);
    [constructor; [exact Hv | constructor]|].
  rewrite string_of_runes_singleton in Hr. rewrite Hr.
  cbn [MatchString class_run]. destruct (inPSZ r); reflexivity.
Qed.

Lemma IsSpecialChar_clean (cs : list Z) :
  Forall valid_rune cs → Forall (λ r, inPSZ r = false) cs →
  IsSpecialChar (string_of_runes cs) = false.
Proof.
  intros Hv Hc. apply not_true_is_false. intros Ht.
  apply IsSpecialChar_exists in Ht as (_ & r & Hr & Hin).
  destruct (encoded_text_split cs Hv) as (_ & Hrunes & _).
  rewrite Hrunes in Hr. rewrite Forall_forall in Hc.
  rewrite (Hc r Hr) in Hin. discriminate.
Qed.

Lemma splitBySpecialChar_loop_spec (rs cs : list Z) (parts : list string) :
  Forall valid_rune rs → Forall valid_rune cs →
  Forall (λ r, inPSZ r = false) cs →
  Forall (λ part, IsSpecialChar part = false) parts →
  ∃ cs',
    (splitBySpecialChar_loop rs parts (string_of_runes cs)).2 = string_of_runes cs'
    ∧ Forall valid_rune cs' ∧ Forall (λ r, inPSZ r = false) cs'
    ∧ Forall (λ part, IsSpecialChar part = false)
             (splitBySpecialChar_loop rs parts (string_of_runes cs)).1
    ∧ (foldr String.append EmptyString
             (splitBySpecialChar_loop rs parts (string_of_runes cs)).1
         ++ string_of_runes cs')%string
      = (foldr String.append EmptyString parts
           ++ (string_of_runes cs
                 ++ string_of_runes (filter (λ r, inPSZ r = false) rs)))%string.
Proof.
  intros Hrs. revert cs parts.
  induction Hrs as [|r rest Hr _ IH]; intros cs parts Hcs Hclean Hparts.
  - exists cs. simpl. repeat split; try assumption.
    now rewrite string_app_empty_r.
  - cbn [splitBySpecialChar_loop]. rewrite (IsSpecialChar_string_of_rune r Hr).
    destruct (inPSZ r) eqn:Hclass.
    + rewrite filter_cons_False by congruence.
      destruct (0 <? String.length (string_of_runes cs))%nat eqn:E.
      * assert (Hparts' : Forall (λ part, IsSpecialChar part = false)
                                 (parts ++ [string_of_runes cs])).
        { apply Forall_app. split; [exact Hparts|].
          constructor; [now apply IsSpecialChar_clean | constructor]. }
        destruct (IH [] (parts ++ [string_of_runes cs])
                     ltac:(constructor) ltac:(constructor) Hparts')
          as (cs' & E1 & E2 & E3 & E4 & E5).
        change (string_of_runes []) with EmptyString in *.
        exists cs'. repeat split; try assumption.
        rewrite E5. rewrite foldr_app. cbn [foldr].
        rewrite string_app_empty_r.
        assert (Hfold : ∀ (l : list string) (x : string),
                   foldr String.append x l
                   = (foldr String.append EmptyString l ++ x)%string).
        { induction l as [|y l IHl]; intros x; [reflexivity|].
          cbn [foldr]. now rewrite IHl, string_app_assoc. }
        rewrite Hfold, string_app_assoc. reflexivity.
      * destruct (IH cs parts) as (cs' & E1 & E2 & E3 & E4 & E5); try assumption.
        exists cs'. repeat split; assumption.
    + rewrite filter_cons_True by exact Hclass.
      rewrite AppendRune_app, <- string_of_runes_singleton, <- string_of_runes_app.
      destruct (IH (cs ++ [r]) parts) as (cs' & E1 & E2 & E3 & E4 & E5);
        try assumption.
      { apply Forall_app. split; [exact Hcs | constructor; [exact Hr | constructor]]. }
      { apply Forall_app. split; [exact Hclean | constructor; [exact Hclass | constructor]]. }
      exists cs'. repeat split; try assumption.
      rewrite E5, string_of_runes_app, string_of_runes_singleton.
      rewrite (string_of_runes_cons r). now rewrite string_app_assoc.
Qed.

(** On a text of Unicode characters, [splitBySpecialChar] removes the
    special characters and nothing else: its parts, put end to end, are the
    text without them, in order, and no part has a special character. *)
Theorem splitBySpecialChar_removes_special (rs : list Z) :
  Forall valid_rune rs →
  foldr String.append EmptyString (splitBySpecialChar (string_of_runes rs))
    = string_of_runes (filter (λ r, inPSZ r = false) rs)
  ∧ Forall (λ part, IsSpecialChar part = false)
           (splitBySpecialChar (string_of_runes rs)).
Proof.
  intros Hv. unfold splitBySpecialChar.
  destruct (encoded_text_split rs Hv) as (_ & -> & _).
  destruct (splitBySpecialChar_loop_spec rs [] [] Hv
              ltac:(constructor) ltac:(constructor) ltac:(constructor))
    as (cs' & E1 & E2 & E3 & E4 & E5).
  change (string_of_runes []) with EmptyString in *.
  destruct (splitBySpecialChar_loop rs [] EmptyString) as [parts cur].
  cbn [fst snd] in *. subst cur. cbn [foldr] in E5.
  change (EmptyString ++ ?x)%string with x in E5.
  assert (Hfold : ∀ (l : list string) (x : string),
             foldr String.append EmptyString (l ++ [x])
             = (foldr String.append EmptyString l ++ x)%string).
  { induction l as [|y l IHl]; intros x; cbn [foldr app].
    - now rewrite string_app_empty_r.
    - now rewrite IHl, string_app_assoc. }
  destruct (0 <? String.length (string_of_runes cs'))%nat eqn:E.
  - split; [rewrite Hfold, E5; reflexivity|].
    apply Forall_app. split; [exact E4|].
    constructor; [now apply IsSpecialChar_clean | constructor].
  - split; [|exact E4].
    change (foldr String.append EmptyString parts
            = (EmptyString ++ string_of_runes (filter (λ r, inPSZ r = false) rs))%string).
    rewrite <- E5.
    apply Nat.ltb_ge in E.
    destruct (string_of_runes cs'); [|simpl in E; lia].
    now rewrite string_app_empty_r.
Qed.
End AddressSplit.

Section UseAfterClose.
Import badger lifecycle store_func.

Lemma closed_db_step (ev : Event) (w w' : World) :
  closed_db w → step ev w = Some w' → closed_db w'.
Proof.
  unfold step. intros Hinv Hstep.
  destruct (crashed w); [discriminate|].
  assert (Hext : ∀ w2, listenerState w2 = listenerState w →
                       db (eng w2) = db (eng w) → closed_db w2).
  { intros w2 HL Hdb. unfold closed_db in *. now rewrite HL, Hdb. }
  destruct ev.
  - destruct (gcState w); [|discriminate]. injection Hstep as <-.
    pose proof (startGcTicker_fields w) as (T1 & _ & _ & _ & T5 & _).
    apply Hext; simpl; assumption.
  - destruct (0 <=? dt); [|discriminate]. injection Hstep as <-.
    apply Hext; reflexivity.
  - destruct (gcState w); [discriminate|].
    destruct (gcTickReady w); [|discriminate]. injection Hstep as <-.
    pose proof (RunValueLogGC_takeGcTick_fields w) as (R1 & _ & _ & R4 & _).
    apply Hext; assumption.
  - destruct (SetGCInterval d) as [n|]; [|injection Hstep as <-; exact Hinv].
    destruct (gcState w); [discriminate|]. injection Hstep as <-.
    pose proof (updateGcInterval_fields n w) as (U1 & _ & _ & U4 & _).
    apply Hext; assumption.
  - destruct (closeState w); try discriminate.
    destruct (listenerState w) eqn:HL; try discriminate.
    injection Hstep as <-. unfold closed_db. simpl. exact I.
  - destruct (listenerState w) eqn:HL; try discriminate.
    injection Hstep as <-. unfold closed_db, listenerCloseBody. simpl.
    destruct (db (eng w)) eqn:Hdb; [|simpl; exact Hdb].
    match goal with |- context [stopGcTicker ?x] =>
      pose proof (stopGcTicker_fields x) as (S1 & _)
    end.
    rewrite S1. reflexivity.
  - destruct (closeState w); try discriminate.
    destruct (listenerState w) eqn:HL; try discriminate.
    injection Hstep as <-. unfold closed_db in *. rewrite HL in Hinv. exact Hinv.
  - destruct (closeState w) as [|t| |]; try discriminate.
    destruct (Second * 5 <=? t); [|discriminate].
    injection Hstep as <-. unfold closed_db in *. simpl. exact Hinv.
  - destruct (closeState w); try discriminate.
    injection Hstep as <-. unfold closed_db in *. simpl. exact Hinv.
Qed.

Lemma closed_db_run (evs : list Event) (w w' : World) :
  closed_db w → run evs w = Some w' → closed_db w'.
Proof.
  revert w; induction evs as [|ev evs IH]; intros w Hinv Hrun; simpl in Hrun.
  - now injection Hrun as <-.
  - destruct (step ev w) as [w1|] eqn:Hstep; [|discriminate].
    eapply IH; [|exact Hrun]. eapply closed_db_step; eauto.
Qed.

(** After [Close] has returned on the acknowledgement, [e.db] is nil and
    stays so: [Get], [Set], [Del], [Exists] and [GetKey] on the engine do
    not return an error, they panic. *)
Theorem store_use_after_Close_panics
        (d0 : DB) (evs : list Event) (w : World) (v : option error) :
  run evs (new d0) = Some w →
  closeState w = CReturned ByAck v →
  db (eng w) = None
  ∧ ∀ key value prefix,
      Get key (eng w) = None ∧ Set_ key value (eng w) = None
      ∧ Del key (eng w) = None ∧ Exists key (eng w) = None
      ∧ GetKey prefix (eng w) = None.
Proof.
  intros Hrun Hret.
  pose proof (handshake_inv_run d0 evs _ _ (handshake_inv_new d0) Hrun) as Hhs.
  assert (Hclosed : closed_db w).
  { eapply closed_db_run; [|exact Hrun]. exact I. }
  unfold handshake_inv in Hhs. unfold closed_db in Hclosed. rewrite Hret in Hhs.
  destruct (listenerState w); try contradiction.
  split; [exact Hclosed|]. intros key value prefix.
  unfold Get, Set_, Del, Exists, GetKey. rewrite Hclosed. repeat split.
Qed.
End UseAfterClose.

Section AddWordStore.
Import participle store_func.
Context `{CharClass} `{Codec} `{Tokenizer}.

(** After a successful [AddWord] of a non-empty word, the store API
    serves the record: [Get]
    returns the encoding of the entry, [Exists] is true, and [GetKey]
    lists the word, with the nil prefix and with any prefix of the word. *)
Theorem AddWord_then_Get (c : string) (f : float) (p : string) (d d' : Engine)
        (prefix : string) :
  AddWord c f p d = Some (d', None) →
  c ≠ EmptyString →
  String.prefix prefix c = true →
  ∃ data keys keys',
    Marshal (mkDictEntry c f p) = inl data
    ∧ Get c (dbEngine d') = Some (data, None)
    ∧ Exists c (dbEngine d') = Some (true, None)
    ∧ GetKey None (dbEngine d') = Some (keys, None) ∧ c ∈ keys
    ∧ GetKey (Some prefix) (dbEngine d') = Some (keys', None) ∧ c ∈ keys'.
Proof.
  intros Hadd Hne Hpre. apply String.eqb_neq in Hne.
  apply AddWord_ok in Hadd as (_ & s & s' & data & _ & Hm & Hdb' & Hdata).
  assert (Hc : badger.data s' !! c = Some data)
    by (rewrite Hdata; apply lookup_insert_eq).
  exists data, (badger.DB_items s').*1,
         (filter (λ k, String.prefix prefix k = true) (badger.DB_items s').*1).
  split; [exact Hm|].
  unfold Get, Exists, tx_Get. rewrite Hdb', Hne, Hc.
  split; [reflexivity|]. split; [reflexivity|].
  assert (Hin : c ∈ (badger.DB_items s').*1) by (apply elem_of_DB_keys; eauto).
  split; [unfold GetKey; now rewrite Hdb'|]. split; [exact Hin|].
  split; [|apply list_elem_of_filter; auto].
  unfold GetKey. rewrite Hdb'. do 2 f_equal.
  destruct (seek_spec prefix _ (DB_items_sorted s')) as (Hs & Hge & Hf).
  rewrite scanPrefix_filter by assumption. exact Hf.
Qed.
End AddWordStore.

(** ** Statements for the users of the packages *)

Section UserFacing.
Import participle consistency utf8enc.
Context `{CharClass} `{Codec} `{Tokenizer}.

(** [SplitString] loses nothing: its pieces, put end to end, are the string. *)
Theorem SplitString_lossless (s : string) :
  foldr String.append EmptyString (SplitString s) = s.
Proof. apply SplitString_join. Qed.

(** [SplitString] cuts a text at its characters: on the UTF-8 encoding of
    a sequence of Unicode scalar values it returns the encodings of the
    values, one by one and in order; the runes a regexp sees in the text
    are the values themselves. *)
Theorem SplitString_of_encoded_text (rs : list Z) :
  Forall valid_rune rs →
  SplitString (string_of_runes rs) = string_of_rune <$> rs
  ∧ runes (string_of_runes rs) = rs
  ∧ length (SplitString (string_of_runes rs)) = length rs.
Proof. apply encoded_text_split. Qed.

(** On a text of Unicode characters, [IsSpecialChar] is true exactly when
    one character at least is punctuation, symbol or separator; the other
    characters of the text do not matter, and the empty text is not special. *)
Theorem IsSpecialChar_of_encoded_text (rs : list Z) :
  Forall valid_rune rs →
  (IsSpecialChar (string_of_runes rs) = true ↔ ∃ r, r ∈ rs ∧ inPSZ r = true).
Proof.
  intros Hv. rewrite IsSpecialChar_exists.
  destruct (encoded_text_split rs Hv) as (_ & -> & _).
  split; [tauto|]. intros (r & Hr & Hc). split; [|eauto].
  destruct rs as [|r0 rs]; [inversion Hr|].
  rewrite string_of_runes_cons. pose proof (string_of_rune_nonempty r0).
  destruct (string_of_rune r0); [congruence | discriminate].
Qed.

(** After [AddWord], whatever it returned, the tree has the word and
    every word it had, and nothing else. *)
Theorem AddWord_contains_iff (c : string) (f : float) (p : string)
        (d d' : Engine) (r : option error) (w : string) :
  AddWord c f p d = Some (d', r) →
  (containsWord w d' = true ↔ w = c ∨ containsWord w d = true).
Proof. apply contains_after_AddWord. Qed.

End UserFacing.

(** ** The statements above on concrete inputs *)

Section MoreExamples.
Import participle standin consistency utf8enc address store_func.
Local Existing Instances asciiClass learnedCodec spaceTokenizer.

Lemma valid_rune_examples : Forall valid_rune [0x6211; 0x2D; 0x61].
Proof.
  repeat constructor;
    unfold valid_rune, MaxRune, surrogateMin, surrogateMax; lia.
Qed.


Lemma SplitString_of_encoded_text_witness :
  SplitString (string_of_runes [0x6211; 0x2D; 0x61])
    = string_of_rune <$> [0x6211; 0x2D; 0x61]
  ∧ runes (string_of_runes [0x6211; 0x2D; 0x61]) = [0x6211; 0x2D; 0x61]
  ∧ length (SplitString (string_of_runes [0x6211; 0x2D; 0x61])) = 3%nat.
Proof.
  apply (SplitString_of_encoded_text [0x6211; 0x2D; 0x61]).
  exact valid_rune_examples.
Defined.

Lemma IsSpecialChar_of_encoded_text_witness :
  IsSpecialChar (string_of_runes [0x6211; 0x2D; 0x61]) = true.
Proof.
  apply (IsSpecialChar_of_encoded_text [0x6211; 0x2D; 0x61]).
  - exact valid_rune_examples.
  - exists 0x2D. split; [|reflexivity].
    apply list_elem_of_further, list_elem_of_here.
Defined.

Lemma splitBySpecialChar_removes_special_witness :
  foldr String.append EmptyString
        (splitBySpecialChar (string_of_runes [0x6211; 0x2D; 0x61]))
    = string_of_runes (filter (λ r, inPSZ r = false) [0x6211; 0x2D; 0x61])
  ∧ Forall (λ part, IsSpecialChar part = false)
           (splitBySpecialChar (string_of_runes [0x6211; 0x2D; 0x61])).
Proof.
  apply (splitBySpecialChar_removes_special [0x6211; 0x2D; 0x61]).
  exact valid_rune_examples.
Defined.

Lemma AddWord_twice_overwrites_witness :
  ∃ d2,
    AddWord "ab" 7%float "v" (abEngine []) = Some (d2, None)
    ∧ root d2
      = trieInsert (SplitString "ab") (mkDictEntry "ab" 7%float "v") NewTrieNode
    ∧ ∃ n, walk (SplitString "ab") (root d2) = Some n
           ∧ IsEnd n = true ∧ Entry n = Some (mkDictEntry "ab" 7%float "v").
Proof.
  eexists. split; [vm_compute; reflexivity|].
  apply (AddWord_twice_overwrites "ab" 1000%float 7%float "nz" "v"
           (emptyEngine []) (abEngine []) _ None None);
    vm_compute; reflexivity.
Defined.

Lemma loadItems_order_irrelevant_witness :
  loadItems [("cd", "cd"); ("ab", "ab")] NewTrieNode
  = loadItems [("ab", "ab"); ("cd", "cd")] NewTrieNode.
Proof.
  apply (loadItems_order_irrelevant [("ab", "ab"); ("cd", "cd")]
                                    [("cd", "cd"); ("ab", "ab")] NewTrieNode).
  - apply perm_swap.
  - repeat constructor; rewrite ?list_elem_of_singleton, ?elem_of_nil;
      try discriminate; tauto.
  - vm_compute. reflexivity.
Defined.

Lemma built_contains_exactly_witness :
  containsWord "ab" (abEngine []) = true ↔ "ab" ∈ ["ab"].
Proof.
  apply (built_contains_exactly ["ab"] (abEngine []) "ab").
  exact built_abEngine.
Defined.

Lemma Bootstrap_mirrors_store_witness :
  synced (mkEngine (dbEngine (abEngine [])) (segmenter (abEngine [])) abRoot)
  ∧ ∀ k v, badger.data abStore !! k = Some v →
      ∃ e n, Unmarshal v = inl e
             ∧ walk (SplitString k) abRoot = Some n
             ∧ IsEnd n = true ∧ Entry n = Some e.
Proof.
  apply (Bootstrap_mirrors_store
           (mkEngine (dbEngine (abEngine [])) (segmenter (abEngine [])) abRoot)
           abStore); vm_compute; reflexivity.
Defined.

Lemma Bootstrap_fails_on_undecodable_witness :
  ∃ k v, badger.data (badger.mkDB {[ "ab" := EmptyString ]} [] None) !! k = Some v
         ∧ Unmarshal v = inr (ErrCodec "unexpected end of JSON input").
Proof.
  apply (proj2 (Bootstrap_fails_on_undecodable
                  (badger.mkDB {[ "ab" := EmptyString ]} [] None)) NewTrieNode).
  vm_compute. reflexivity.
Defined.

Lemma AddWord_contains_iff_witness :
  containsWord "a" (abEngine []) = true
  ↔ "a" = "ab" ∨ containsWord "a" (emptyEngine []) = true.
Proof.
  apply (AddWord_contains_iff "ab" 1000%float "nz" (emptyEngine []) (abEngine [])
                              None "a").
  vm_compute. reflexivity.
Defined.


Lemma LearnFromText_learns_exactly_witness :
  ∃ d', LearnFromText "ab - c" (emptyEngine []) = Some (d', None)
        ∧ (containsWord "ab" d' = true ↔
             containsWord "ab" (emptyEngine []) = true
             ∨ ("ab" ∈ Cut (segmenter (emptyEngine [])) "ab - c" true
                ∧ (1 < String.length "ab")%nat ∧ IsSpecialChar "ab" = false)).
Proof.
  eexists. split; [vm_compute; reflexivity|].
  apply (LearnFromText_learns_exactly "ab - c" (emptyEngine []) _ (openDB []) "ab");
    vm_compute; reflexivity.
Defined.

Lemma LearnFromText_failure_witness :
  ∃ d' err,
    LearnFromText "ab cd" (emptyEngine [Some diskFull]) = Some (d', Some err)
    ∧ (∃ e, err = ErrWrap "添加新词失败" (ErrWrap "save content to db fail" e))
    ∧ (∀ w, containsWord w (emptyEngine [Some diskFull]) = true →
            containsWord w d' = true)
    ∧ (∀ w, containsWord w d' = true →
            containsWord w (emptyEngine [Some diskFull]) = true
            ∨ (w ∈ Cut (segmenter (emptyEngine [Some diskFull])) "ab cd" true
               ∧ (1 < String.length w)%nat ∧ IsSpecialChar w = false)).
Proof.
  eexists _, _. split; [vm_compute; reflexivity|].
  apply (LearnFromText_failure "ab cd" (emptyEngine [Some diskFull]) _
                               (openDB [Some diskFull]));
    vm_compute; reflexivity.
Defined.


Lemma LearnFromText_nothing_new_witness :
  LearnFromText "ab a-b c" (abEngine []) = Some (abEngine [], None).
Proof.
  apply (LearnFromText_nothing_new "ab a-b c" (abEngine [])).
  intros w Hw.
  change (w ∈ ["ab"; "a-b"; "c"]) in Hw.
  rewrite !elem_of_cons, elem_of_nil in Hw.
  destruct Hw as [->|[->|[->|[]]]].
  - right. right. vm_compute. reflexivity.
  - right. left. vm_compute. reflexivity.
  - left. simpl. lia.
Defined.

Lemma AddWord_then_Get_witness :
  ∃ data keys keys',
    Marshal (mkDictEntry "ab" 1000%float "nz") = inl data
    ∧ Get "ab" (dbEngine (abEngine [])) = Some (data, None)
    ∧ Exists "ab" (dbEngine (abEngine [])) = Some (true, None)
    ∧ GetKey None (dbEngine (abEngine [])) = Some (keys, None) ∧ "ab" ∈ keys
    ∧ GetKey (Some "a") (dbEngine (abEngine [])) = Some (keys', None) ∧ "ab" ∈ keys'.
Proof.
  apply (AddWord_then_Get "ab" 1000%float "nz" (emptyEngine []) (abEngine []) "a");
    [vm_compute; reflexivity | discriminate | reflexivity].
Defined.

End MoreExamples.

Section StoreExamples.
Import badger store_func standin.

Lemma GetKey_prefix_scan_witness :
  GetKey (Some "a") (participle.dbEngine (abEngine []))
    = Some (filter (λ k, String.prefix "a" k = true) (DB_items abStore).*1, None)
  ∧ GetKey None (participle.dbEngine (abEngine [])) = Some ((DB_items abStore).*1, None)
  ∧ GetKey (Some EmptyString) (participle.dbEngine (abEngine []))
    = GetKey None (participle.dbEngine (abEngine []))
  ∧ NoDup (DB_items abStore).*1
  ∧ (∀ k keys, GetKey (Some "a") (participle.dbEngine (abEngine [])) = Some (keys, None) →
       (k ∈ keys ↔ is_Some (data abStore !! k) ∧ String.prefix "a" k = true)).
Proof.
  apply (GetKey_prefix_scan (participle.dbEngine (abEngine [])) abStore "a").
  vm_compute. reflexivity.
Defined.

Lemma Set_then_Get_witness :
  ∃ e', Set_ "k" "v" (participle.dbEngine (abEngine [])) = Some (e', None)
        ∧ Get "k" e' = Some ("v", None)
        ∧ Exists "k" e' = Some (true, None).
Proof.
  eexists. split; [vm_compute; reflexivity|].
  refine (proj1 (Set_then_Get "k" "v" (participle.dbEngine (abEngine [])) _ None _) _);
    [vm_compute; reflexivity | discriminate].
Defined.

Lemma Exists_agrees_with_Get_witness :
  Get "k" (participle.dbEngine (abEngine [])) = Some (EmptyString, Some ErrKeyNotFound)
  ∧ Exists "k" (participle.dbEngine (abEngine [])) = Some (false, None).
Proof.
  apply (Exists_agrees_with_Get "k" (participle.dbEngine (abEngine [])) abStore).
  - vm_compute. reflexivity.
  - discriminate.
  - vm_compute. reflexivity.
Defined.

Lemma Del_then_Exists_witness :
  ∃ e', Del "ab" (participle.dbEngine (abEngine [])) = Some (e', None)
        ∧ Exists "ab" e' = Some (false, None)
        ∧ Get "ab" e' = Some (EmptyString, Some ErrKeyNotFound)
        ∧ ∀ k, k ≠ "ab" → Get k e' = Get k (participle.dbEngine (abEngine []))
                          ∧ Exists k e' = Exists k (participle.dbEngine (abEngine [])).
Proof.
  eexists. split; [vm_compute; reflexivity|].
  apply (Del_then_Exists "ab" (participle.dbEngine (abEngine [])) _ None).
  vm_compute. reflexivity.
Defined.

Lemma Close_result_in_every_run_witness :
  ∃ w, run closeAcked (new (openDB [])) = Some w
       ∧ closeState w = CReturned ByAck None
       ∧ requests w = 1%nat
       ∧ listenerState w = LDone.
Proof.
  eexists. split; [vm_compute; reflexivity|].
  split; [reflexivity|].
  match goal with
  | |- requests ?w = _ ∧ _ =>
      destruct (Close_result_in_every_run (openDB []) closeAcked w)
        as (_ & Hret & _);
        [vm_compute; reflexivity|];
        destruct (Hret ByAck None eq_refl) as (Hreq & Hdone & _)
  end.
  split; [exact Hreq | exact Hdone].
Defined.

Lemma crash_only_two_ways_witness :
  ∃ w w', run [CloseSend] (new (openDB [])) = Some w
          ∧ step ListenerClose w = Some w'
          ∧ crashed w' = true
          ∧ ((ListenerClose = ListenerClose ∧ gcState w = GCInit)
             ∨ (ListenerClose = GCTick ∧ db (eng w) = None)).
Proof.
  eexists _, _. split; [vm_compute; reflexivity|].
  split; [vm_compute; reflexivity|].
  split; [reflexivity|].
  eapply (crash_only_two_ways (openDB []) [CloseSend] ListenerClose);
    [vm_compute; reflexivity | vm_compute; reflexivity | reflexivity].
Defined.

Lemma no_ticker_left_running_witness :
  ∃ w t, run [GoListenerGC; CallSetGCInterval 7] (new (openDB [])) = Some w
         ∧ timers w !! 1%nat = Some t
         ∧ gcTicker (eng w) = Some 1%nat.
Proof.
  eexists _, _. split; [vm_compute; reflexivity|].
  split; [vm_compute; reflexivity|].
  match goal with
  | |- gcTicker (eng ?w) = _ =>
      eapply (no_ticker_left_running (openDB [])
                [GoListenerGC; CallSetGCInterval 7] w)
  end; vm_compute; reflexivity.
Defined.

Lemma store_use_after_Close_panics_witness :
  ∃ w, run closeAcked (new (openDB [])) = Some w
       ∧ db (eng w) = None
       ∧ ∀ key value prefix,
           Get key (eng w) = None ∧ Set_ key value (eng w) = None
           ∧ Del key (eng w) = None ∧ Exists key (eng w) = None
           ∧ GetKey prefix (eng w) = None.
Proof.
  eexists. split; [vm_compute; reflexivity|].
  apply (store_use_after_Close_panics (openDB []) closeAcked _ None);
    vm_compute; reflexivity.
Defined.
End StoreExamples.
